(** * The RPC skeleton of rpc-server/server.js and protocol.js

    A shallow embedding of the transport and dispatch engine: the
    per-connection read buffer and its newline framing, the message parser
    of protocol.js, the shared-secret check, the in-memory job queue with its
    [isProcessing] flag, the worker [processQueue] and the method switch
    [executeMethod].

    JavaScript strings are sequences of UTF-16 code units, inbound chunks are
    byte buffers, parsed messages are JavaScript values.  The event loop is a
    labelled step relation whose steps are the macrotasks of the server: a
    chunk arriving on a socket, the 50 ms timer of a worker firing, the audit
    call settling, a [setImmediate] callback running, a socket closing. *)

From Stdlib Require Import ZArith NArith QArith Strings.Ascii Strings.String Strings.Byte.
From stdpp Require Import gmap list strings pretty.

Set Warnings "-register-all".
Open Scope N_scope.

(** ** Strings and buffers *)

(** A JavaScript string: its UTF-16 code units. *)
Definition jsstring := list N.

(** The string a source literal denotes (the literals of the program are
    ASCII). *)
Definition js (s : string) : jsstring :=
  N_of_ascii <$> list_ascii_of_string s.
Arguments js : simpl never.

(** A Node.js [Buffer]. *)
Definition Buffer := list byte.

Definition buffer_of (s : string) : Buffer := list_byte_of_string s.

Module Utf8.

(** [Buffer.prototype.toString()] decodes UTF-8 and substitutes U+FFFD for
    every ill-formed subsequence.  The decoder keeps the code point being
    assembled, the number of continuation bytes still expected and the
    range allowed for the next byte. *)
Record pending := Pending {
  code_point : N;
  bytes_needed : nat;
  lower : N;
  upper : N
}.

Definition idle : pending := Pending 0 0 128 191.

Definition replacement : N := 65533.

(** A byte met while no sequence is open: an ASCII byte is emitted, a lead
    byte opens a sequence, anything else is ill-formed. *)
Definition lead (b : N) : list N * pending :=
  if b <=? 127 then ([b], idle)
  else if (194 <=? b) && (b <=? 223) then ([], Pending (N.land b 31) 1 128 191)
  else if (224 <=? b) && (b <=? 239) then
    ([], Pending (N.land b 15) 2 (if b =? 224 then 160 else 128)
                 (if b =? 237 then 159 else 191))
  else if (240 <=? b) && (b <=? 244) then
    ([], Pending (N.land b 7) 3 (if b =? 240 then 144 else 128)
                 (if b =? 244 then 143 else 191))
  else ([replacement], idle).

Fixpoint code_points (st : pending) (bs : list N) : list N :=
  match bs with
  | [] => match bytes_needed st with O => [] | S _ => [replacement] end
  | b :: rest =>
      match bytes_needed st with
      | O => let '(out, st') := lead b in out ++ code_points st' rest
      | S n =>
          if (lower st <=? b) && (b <=? upper st) then
            let cp := N.lor (N.shiftl (code_point st) 6) (N.land b 63) in
            match n with
            | O => cp :: code_points idle rest
            | S _ => code_points (Pending cp n 128 191) rest
            end
          else
            let '(out, st') := lead b in
            replacement :: out ++ code_points st' rest
      end
  end.

(** A code point as UTF-16: itself, or a surrogate pair above the BMP. *)
Definition utf16 (cp : N) : list N :=
  if cp <? 65536 then [cp]
  else let v := cp - 65536 in [55296 + N.shiftr v 10; 56320 + N.land v 1023].

Definition decode (b : Buffer) : jsstring :=
  code_points idle (Byte.to_N <$> b) ≫= utf16.

End Utf8.

(** [data.toString()] *)
Definition toString (data : Buffer) : jsstring := Utf8.decode data.

(** The line feed, the frame terminator. *)
Definition LF : N := 10.

(** A PDU on the wire: the message and one terminator. *)
Definition framed (m : jsstring) : jsstring := m ++ [LF].

(** A buffer of ASCII bytes. *)
Definition ascii_only (data : Buffer) : Prop :=
  Forall (λ b, Byte.to_N b < 128) data.

(** [s.split('\n')]: the pieces between the terminators; never empty. *)
Fixpoint split (s : jsstring) : list jsstring :=
  match s with
  | [] => [[]]
  | c :: s' =>
      if c =? LF then [] :: split s'
      else match split s' with
           | [] => [[c]]
           | piece :: pieces => (c :: piece) :: pieces
           end
  end.

(** [a.pop()]: the array without its last element, and that element
    ([None] stands for [undefined], the result on an empty array). *)
Fixpoint pop {A} (a : list A) : list A * option A :=
  match a with
  | [] => ([], None)
  | [x] => ([], Some x)
  | x :: a' => let '(front, lst) := pop a' in (x :: front, lst)
  end.

(** White space and line terminators of ECMAScript, as [trim] strips
    them. *)
Definition is_white (c : N) : bool :=
  ((9 <=? c) && (c <=? 13)) || (c =? 32) || (c =? 160) || (c =? 5760)
  || ((8192 <=? c) && (c <=? 8202)) || (c =? 8232) || (c =? 8233)
  || (c =? 8239) || (c =? 8287) || (c =? 12288) || (c =? 65279).

Fixpoint trim_start (s : jsstring) : jsstring :=
  match s with
  | [] => []
  | c :: s' => if is_white c then trim_start s' else s
  end.

Definition trim_end (s : jsstring) : jsstring :=
  reverse (trim_start (reverse s)).

(** [s.trim()] *)
Definition trim (s : jsstring) : jsstring := trim_end (trim_start s).

(** [!s]: the empty string is the only falsy string. *)
Definition is_empty (s : jsstring) : bool :=
  match s with [] => true | _ => false end.

(** ** JavaScript values *)

(** The values the server handles: what [JSON.parse] returns, [undefined],
    and the result objects the handlers build.  A number is kept as the exact
    rational it denotes. *)
Inductive value :=
| VUndefined
| VNull
| VBool (b : bool)
| VNum (q : Q)
| VStr (s : jsstring)
| VArr (items : list value)
| VObj (props : list (jsstring * value)).

Definition VInt (z : Z) : value := VNum (inject_Z z).

(** A thrown [Error] object, by its constructor; [message] is its
    [.message]. *)
Inductive error :=
| Error (msg : jsstring)
| TypeError (msg : jsstring).

Definition message (e : error) : jsstring :=
  match e with Error m | TypeError m => m end.

(** The outcome of evaluating an expression or running a block. *)
Inductive completion (A : Type) :=
| Normal (a : A)
| Throw (e : error).
Arguments Normal {A} a.
Arguments Throw {A} e.

#[global] Instance completion_ret : MRet completion := λ A a, Normal a.
#[global] Instance completion_bind : MBind completion := λ A B k c,
  match c with Normal a => k a | Throw e => Throw e end.

Fixpoint own_property (k : jsstring) (props : list (jsstring * value)) : option value :=
  match props with
  | [] => None
  | (k', v) :: props' => if bool_decide (k' = k) then Some v else own_property k props'
  end.

(** The property read [v.k], for the names the program reads ([header],
    [method], [auth_token], [request_id], [body], [filename], [content],
    [user_id], [length]): reading from [undefined] or [null] throws (with
    V8's wording), an object yields its own property or [undefined], a
    string or an array has a [length], everything else yields
    [undefined]. *)
Definition get (v : value) (k : jsstring) : completion value :=
  match v with
  | VUndefined =>
      Throw (TypeError (js "Cannot read properties of undefined (reading '" ++ k ++ js "')"))
  | VNull =>
      Throw (TypeError (js "Cannot read properties of null (reading '" ++ k ++ js "')"))
  | VObj props => Normal (default VUndefined (own_property k props))
  | VStr s =>
      Normal (if bool_decide (k = js "length") then VInt (Z.of_nat (length s)) else VUndefined)
  | VArr items =>
      Normal (if bool_decide (k = js "length") then VInt (Z.of_nat (length items)) else VUndefined)
  | VBool _ | VNum _ => Normal VUndefined
  end.

(** [ToBoolean] *)
Definition truthy (v : value) : bool :=
  match v with
  | VUndefined | VNull => false
  | VBool b => b
  | VNum q => negb (Qnum q =? 0)%Z
  | VStr s => negb (is_empty s)
  | VArr _ | VObj _ => true
  end.

(** [v === s] for a string [s]. *)
Definition strict_equals (v : value) (s : jsstring) : bool :=
  match v with VStr t => bool_decide (t = s) | _ => false end.

(** [content.substring(0, 50)]: only a string has the method; on any other
    value the call throws, since [content.substring] is not a function. *)
Definition substring_0_50 (content : value) : completion value :=
  match content with
  | VStr s => Normal (VStr (take 50 s))
  | VUndefined | VNull => get content (js "substring")
  | _ => Throw (TypeError (js "payload.content.substring is not a function"))
  end.

(** ** Sockets, jobs and the server state *)

(** A connection: the [buffer] variable the connection callback closes over,
    the frames passed to [socket.write] so far, whether [socket.end()] was
    called, and [socket.destroyed]. *)
Record Socket := mkSocket {
  buffer : jsstring;
  written : list jsstring;
  ended : bool;
  destroyed : bool
}.

Definition fresh_socket : Socket := mkSocket [] [] false false.

(** A queued job.  [socket] is the reference to the owning connection;
    [jid] is a ghost serial number, the rank of the job in admission order,
    which the program does not store. *)
Record Job := mkJob {
  method : value;
  payload : value;
  requestId : value;
  socket : nat;
  receivedAt : Z;
  jid : nat
}.

Record Stats := mkStats {
  totalReceived : nat;
  totalProcessed : nat;
  totalErrors : nat;
  startTime : Z
}.

(** The arguments of one [convex.mutation("uploads:logUpload", ...)] call
    (its [status] is always ["completed"]). *)
Record Mutation := mkMutation {
  mut_filename : value;
  fileSize : value;
  contentPreview : value
}.

(** Where a running [processQueue] activation is suspended: at the 50 ms
    delay, or inside [executeMethod] at the audit call. *)
Inductive phase := Sleeping | AwaitingSink.

Record Worker := mkWorker {
  job : Job;
  at_phase : phase
}.

(** The module-level state of server.js, the connections, the suspended
    [processQueue] activations, the number of [setImmediate] callbacks not
    yet run, the audit calls issued, and two ghost logs: the serial numbers
    of the jobs in the order they were pushed and in the order they were
    shifted. *)
Record State := mkState {
  processingQueue : list Job;
  isProcessing : bool;
  stats : Stats;
  sockets : gmap nat Socket;
  workers : list Worker;
  immediates : nat;
  mutations : list Mutation;
  admitted : list nat;
  begun : list nat
}.

Definition initial (start : Z) : State :=
  mkState [] false (mkStats 0 0 0 start) ∅ [] 0 [] [] [].

Definition with_queue (q : list Job) (st : State) : State :=
  mkState q (isProcessing st) (stats st) (sockets st) (workers st)
          (immediates st) (mutations st) (admitted st) (begun st).
Definition with_isProcessing (b : bool) (st : State) : State :=
  mkState (processingQueue st) b (stats st) (sockets st) (workers st)
          (immediates st) (mutations st) (admitted st) (begun st).
Definition with_stats (s : Stats) (st : State) : State :=
  mkState (processingQueue st) (isProcessing st) s (sockets st) (workers st)
          (immediates st) (mutations st) (admitted st) (begun st).
Definition with_sockets (m : gmap nat Socket) (st : State) : State :=
  mkState (processingQueue st) (isProcessing st) (stats st) m (workers st)
          (immediates st) (mutations st) (admitted st) (begun st).
Definition with_workers (w : list Worker) (st : State) : State :=
  mkState (processingQueue st) (isProcessing st) (stats st) (sockets st) w
          (immediates st) (mutations st) (admitted st) (begun st).
Definition with_immediates (n : nat) (st : State) : State :=
  mkState (processingQueue st) (isProcessing st) (stats st) (sockets st)
          (workers st) n (mutations st) (admitted st) (begun st).
Definition with_mutations (l : list Mutation) (st : State) : State :=
  mkState (processingQueue st) (isProcessing st) (stats st) (sockets st)
          (workers st) (immediates st) l (admitted st) (begun st).
Definition with_admitted (l : list nat) (st : State) : State :=
  mkState (processingQueue st) (isProcessing st) (stats st) (sockets st)
          (workers st) (immediates st) (mutations st) l (begun st).
Definition with_begun (l : list nat) (st : State) : State :=
  mkState (processingQueue st) (isProcessing st) (stats st) (sockets st)
          (workers st) (immediates st) (mutations st) (admitted st) l.

(** [socket.write(frame)] on connection [c] *)
Definition socket_write (c : nat) (frame : jsstring) (st : State) : State :=
  with_sockets
    (alter (λ s, mkSocket (buffer s) (written s ++ [frame]) (ended s) (destroyed s))
           c (sockets st)) st.

(** [socket.end()] *)
Definition socket_end (c : nat) (st : State) : State :=
  with_sockets
    (alter (λ s, mkSocket (buffer s) (written s) true (destroyed s)) c (sockets st)) st.

(** [buffer = b] in the callback of connection [c] *)
Definition set_buffer (c : nat) (b : jsstring) (st : State) : State :=
  with_sockets
    (alter (λ s, mkSocket b (written s) (ended s) (destroyed s)) c (sockets st)) st.

(** The socket is closed: [socket.destroyed] becomes true. *)
Definition socket_destroy (c : nat) (st : State) : State :=
  with_sockets
    (alter (λ s, mkSocket (buffer s) (written s) (ended s) true) c (sockets st)) st.

(** [job.socket && !job.socket.destroyed] *)
Definition writable (j : Job) (st : State) : bool :=
  match sockets st !! socket j with
  | Some s => negb (destroyed s)
  | None => false
  end.

Definition count_received (st : State) : State :=
  let s := stats st in
  with_stats (mkStats (S (totalReceived s)) (totalProcessed s) (totalErrors s) (startTime s)) st.
Definition count_processed (st : State) : State :=
  let s := stats st in
  with_stats (mkStats (totalReceived s) (S (totalProcessed s)) (totalErrors s) (startTime s)) st.
Definition count_error (st : State) : State :=
  let s := stats st in
  with_stats (mkStats (totalReceived s) (totalProcessed s) (S (totalErrors s)) (startTime s)) st.

(** What the clock and the random generator deliver during one turn of the
    event loop: [Date.now()], [new Date().toISOString()] and
    [Math.floor(Math.random() * 10000)]. *)
Record Env := mkEnv {
  now : Z;
  iso : jsstring;
  random10000 : Z
}.

(** ** Statements: state and exceptions *)

(** A statement runs on the state and completes normally or throws; the
    changes made before a throw stay. *)
Definition stmt (A : Type) := State → State * completion A.

#[global] Instance stmt_ret : MRet stmt := λ A a st, (st, Normal a).
#[global] Instance stmt_bind : MBind stmt := λ A B k m st,
  match m st with
  | (st', Normal a) => k a st'
  | (st', Throw e) => (st', Throw e)
  end.

(** An expression evaluated for its value, and a state change that cannot
    throw. *)
Definition eval {A} (c : completion A) : stmt A := λ st, (st, c).
Definition exec (f : State → State) : stmt unit := λ st, (f st, Normal tt).

(** [try { body } catch (e) { handler }] *)
Definition try_catch {A} (body : stmt A) (handler : error → stmt A) : stmt A :=
  λ st, match body st with
        | (st', Normal a) => (st', Normal a)
        | (st', Throw e) => handler e st'
        end.

(** ** protocol.js *)

Module RPC_METHODS.
Definition UPLOAD_FILE : jsstring := js "UPLOAD_FILE".
Definition LIST_FILES : jsstring := js "LIST_FILES".
Definition DELETE_FILE : jsstring := js "DELETE_FILE".
Definition CHECK_BALANCE : jsstring := js "CHECK_BALANCE".
Definition PING : jsstring := js "PING".

Definition all : list jsstring :=
  [UPLOAD_FILE; LIST_FILES; DELETE_FILE; CHECK_BALANCE; PING].
End RPC_METHODS.

(** The shared secret of server.js. *)
Definition AUTH_TOKEN : jsstring := js "SECRET_123".

(** How [executeMethod] stands after a turn: it has run to its end, or it is
    suspended at [await convex.mutation(...)]. *)
Inductive running :=
| Done (outcome : completion value)
| Await (call : Mutation).

(** How one iteration of the loop over the messages ends: the loop goes on
    to the next message, or the callback returns. *)
Inductive flow := Next | Return.

(** The turns of the event loop: a connection is accepted, a chunk
    arrives, the idle timeout of a socket fires, a socket is closed, the
    50 ms timer of a suspended activation fires, the audit call of an
    activation settles, a [setImmediate] callback runs. *)
Inductive event :=
| Accept (c : nat)
| Data (c : nat) (data : Buffer) (env : Env)
| Timeout (c : nat)
| Close (c : nat)
| TimerFired (i : nat) (env : Env)
| Settled (i : nat) (settled : completion value) (env : Env)
| Immediate.

(** ** The caller's side *)

(** What the clock and the random generator deliver while a request is
    marshalled: [Date.now()] for the timestamp, [Date.now()] again inside
    the request id, and [Math.random().toString(36).substr(2, 9)]. *)
Record ClientEnv := mkClientEnv {
  stamp : Z;
  stamp_id : Z;
  random_id : jsstring
}.

(** The socket of one call of the stub: not yet connected, connected,
    destroyed (by the stub, or after an error) with its ['close'] event still
    to come, closed. *)
Inductive link := Connecting | Open | Destroyed | Closed.

(** One call of [sendToRpcServer]: the [responseBuffer] it closes over,
    whether its timeout is still armed, its socket, the promise it returned
    ([None] while pending) and what it wrote to the socket. *)
Record Call := mkCall {
  responseBuffer : jsstring;
  armed : bool;
  wire_state : link;
  promise : option (completion value);
  sent : list jsstring
}.

(** The events of a call: the connection is established, a chunk arrives,
    the socket reports an error, the socket closes, the timeout fires. *)
Inductive stub_event :=
| SConnect
| SData (data : Buffer)
| SError (msg : jsstring)
| SClose
| STimeout.

(** ** Sample built-ins

    The program's theorems hold for every [JSON.parse], [JSON.stringify] and
    number formatter.  The examples need concrete ones: a reader and a
    printer for JSON texts with objects, arrays, strings (with their
    escapes), numbers and the three literals.  Numbers are kept as exact
    fractions, where JavaScript rounds to the nearest double. *)
Module Sample.

Fixpoint skip_ws (s : jsstring) : jsstring :=
  match s with
  | c :: s' => if (c =? 32) || (c =? 9) || (c =? 10) || (c =? 13) then skip_ws s' else s
  | [] => []
  end.

Fixpoint strip_prefix (p s : jsstring) : option jsstring :=
  match p, s with
  | [], _ => Some s
  | a :: p', b :: s' => if a =? b then strip_prefix p' s' else None
  | _ :: _, [] => None
  end.

Definition hex_digit (c : N) : option N :=
  if (48 <=? c) && (c <=? 57) then Some (c - 48)
  else if (97 <=? c) && (c <=? 102) then Some (c - 87)
  else if (65 <=? c) && (c <=? 70) then Some (c - 55)
  else None.

(** The characters of a string literal after its opening quote. *)
Fixpoint read_string (fuel : nat) (s acc : jsstring) : option (jsstring * jsstring) :=
  match fuel with
  | O => None
  | S fuel' =>
      match s with
      | [] => None
      | 34 :: rest => Some (reverse acc, rest)
      | 92 :: 117 :: a :: b :: c :: d :: rest =>
          a ← hex_digit a; b ← hex_digit b; c ← hex_digit c; d ← hex_digit d;
          read_string fuel' rest ((((a * 16 + b) * 16 + c) * 16 + d) :: acc)
      | 92 :: e :: rest =>
          c ← (if e =? 34 then Some 34 else if e =? 92 then Some 92
               else if e =? 47 then Some 47 else if e =? 98 then Some 8
               else if e =? 102 then Some 12 else if e =? 110 then Some 10
               else if e =? 114 then Some 13 else if e =? 116 then Some 9
               else None);
          read_string fuel' rest (c :: acc)
      | c :: rest => if c <? 32 then None else read_string fuel' rest (c :: acc)
      end
  end.

Fixpoint read_digits (s : jsstring) (acc : Z) (n : nat) : Z * nat * jsstring :=
  match s with
  | c :: s' =>
      if (48 <=? c) && (c <=? 57)
      then read_digits s' (acc * 10 + Z.of_N (c - 48))%Z (S n)
      else (acc, n, s)
  | [] => (acc, n, [])
  end.

Definition read_number (s : jsstring) : option (value * jsstring) :=
  let '(neg, s1) := match s with 45 :: r => (true, r) | _ => (false, s) end in
  let '(int, n, s2) := read_digits s1 0%Z 0%nat in
  if bool_decide (n = 0%nat) then None
  else if match s1 with 48 :: _ => bool_decide (1 < n)%nat | _ => false end then None
  else
    let '(num, den, s3) :=
      match s2 with
      | 46 :: r =>
          let '(frac, k, r') := read_digits r 0%Z 0%nat in
          (int * 10 ^ Z.of_nat k + frac, if bool_decide (k = 0%nat) then 0 else 10 ^ Z.of_nat k, r')%Z
      | _ => (int, 1%Z, s2)
      end in
    let exponent :=
      match s3 with
      | 101 :: r | 69 :: r =>
          let '(down, r1) :=
            match r with 43 :: r' => (false, r') | 45 :: r' => (true, r') | _ => (false, r) end in
          let '(e, k, r2) := read_digits r1 0%Z 0%nat in
          if bool_decide (k = 0%nat) then None else Some (down, e, r2)
      | _ => Some (false, 0%Z, s3)
      end in
    match den, exponent with
    | Zpos d, Some (down, e, s4) =>
        let num' := (if neg then - num else num)%Z in
        match (10 ^ e)%Z with
        | Zpos scale =>
            Some (VNum (if down then Qmake num' (d * scale) else Qmake (num' * Zpos scale) d),
                  s4)
        | _ => None
        end
    | _, _ => None
    end.

Fixpoint set_property (k : jsstring) (v : value) (props : list (jsstring * value)) :
    list (jsstring * value) :=
  match props with
  | [] => [(k, v)]
  | (k', v') :: props' =>
      if bool_decide (k' = k) then (k, v) :: props' else (k', v') :: set_property k v props'
  end.

Fixpoint read_value (fuel : nat) (s : jsstring) : option (value * jsstring) :=
  match fuel with
  | O => None
  | S fuel' =>
      match skip_ws s with
      | 123 :: r =>
          match skip_ws r with
          | 125 :: r' => Some (VObj [], r')
          | r1 =>
              (fix members (n : nat) (s : jsstring) (acc : list (jsstring * value)) :=
                 match n with
                 | O => None
                 | S n' =>
                     match skip_ws s with
                     | 34 :: s1 =>
                         '(k, s2) ← read_string (S (length s1)) s1 [];
                         match skip_ws s2 with
                         | 58 :: s3 =>
                             '(v, s4) ← read_value fuel' s3;
                             match skip_ws s4 with
                             | 44 :: s5 => members n' s5 (set_property k v acc)
                             | 125 :: s5 => Some (VObj (set_property k v acc), s5)
                             | _ => None
                             end
                         | _ => None
                         end
                     | _ => None
                     end
                 end) fuel' r1 []
          end
      | 91 :: r =>
          match skip_ws r with
          | 93 :: r' => Some (VArr [], r')
          | r1 =>
              (fix elements (n : nat) (s : jsstring) (acc : list value) :=
                 match n with
                 | O => None
                 | S n' =>
                     '(v, s1) ← read_value fuel' s;
                     match skip_ws s1 with
                     | 44 :: s2 => elements n' s2 (v :: acc)
                     | 93 :: s2 => Some (VArr (reverse (v :: acc)), s2)
                     | _ => None
                     end
                 end) fuel' r1 []
          end
      | 34 :: r =>
          '(str, r') ← read_string (S (length r)) r [];
          Some (VStr str, r')
      | s1 =>
          match strip_prefix (js "true") s1, strip_prefix (js "false") s1,
                strip_prefix (js "null") s1 with
          | Some r, _, _ => Some (VBool true, r)
          | _, Some r, _ => Some (VBool false, r)
          | _, _, Some r => Some (VNull, r)
          | _, _, _ => read_number s1
          end
      end
  end.

Definition JSON_parse (text : jsstring) : option value :=
  '(v, rest) ← read_value (S (length text)) text;
  match skip_ws rest with [] => Some v | _ => None end.

Fixpoint drop_zeros (digits : jsstring) : jsstring :=
  match digits with
  | 48 :: rest => drop_zeros rest
  | _ => digits
  end.

(** Integers in decimal, and a number with at most three decimals with the
    decimals it has, both as JavaScript prints them (1.06 for 1060/1000);
    of another number the first three decimals. *)
Definition Number_toString (q : Q) : jsstring :=
  let n := Qnum q in
  let d := Zpos (Qden q) in
  let sign := if (n <? 0)%Z then js "-" else [] in
  let a := Z.abs n in
  if (a mod d =? 0)%Z then sign ++ js (pretty (a / d)%Z)
  else
    let frac := drop 1 (js (pretty (1000 + (a * 1000 / d) mod 1000)%Z)) in
    match reverse (drop_zeros (reverse frac)) with
    | [] => sign ++ js (pretty (a / d)%Z)
    | decimals => sign ++ js (pretty (a / d)%Z) ++ js "." ++ decimals
    end.

Definition hex (d : N) : N := if d <? 10 then 48 + d else 87 + d.

(** The escape with four hexadecimal digits, in lower case. *)
Definition escape_unit (c : N) : jsstring :=
  [92; 117; hex (c / 4096); hex (c / 256 mod 16); hex (c / 16 mod 16); hex (c mod 16)].

Definition escape (c : N) : jsstring :=
  if c =? 34 then [92; 34] else if c =? 92 then [92; 92]
  else if c =? 8 then [92; 98] else if c =? 12 then [92; 102]
  else if c =? 10 then [92; 110] else if c =? 13 then [92; 114]
  else if c =? 9 then [92; 116]
  else if c <? 32 then escape_unit c
  else [c].

(** The characters of a string literal: the quote, the backslash and the
    control characters are escaped, and so is a surrogate that is not half
    of a pair. *)
Fixpoint quoted (s : jsstring) : jsstring :=
  match s with
  | [] => []
  | c :: s' =>
      if (55296 <=? c) && (c <=? 56319) then
        match s' with
        | d :: s'' =>
            if (56320 <=? d) && (d <=? 57343) then c :: d :: quoted s''
            else escape_unit c ++ quoted s'
        | [] => escape_unit c
        end
      else if (56320 <=? c) && (c <=? 57343) then escape_unit c ++ quoted s'
      else escape c ++ quoted s'
  end.

Definition quote (s : jsstring) : jsstring := [34] ++ quoted s ++ [34].

Fixpoint JSON_stringify (v : value) : jsstring :=
  match v with
  | VUndefined | VNull => js "null"
  | VBool true => js "true"
  | VBool false => js "false"
  | VNum q => Number_toString q
  | VStr s => quote s
  | VArr items =>
      js "[" ++
      (fix elements (l : list value) : jsstring :=
         match l with
         | [] => []
         | x :: l' =>
             JSON_stringify x ++ match l' with [] => [] | _ :: _ => js "," ++ elements l' end
         end) items ++ js "]"
  | VObj props =>
      js "{" ++
      (fix members (l : list (jsstring * value)) (first : bool) : jsstring :=
         match l with
         | [] => []
         | (_, VUndefined) :: l' => members l' first
         | (k, x) :: l' =>
             (if first then [] else js ",") ++ quote k ++ js ":" ++ JSON_stringify x
             ++ members l' false
         end) props true ++ js "}"
  end.

(** A text with [`] standing for the double quote, as bytes and as a
    string. *)
Definition text (s : string) : jsstring :=
  (λ c, if c =? 96 then 34 else c) <$> js s.
Definition bytes (s : string) : Buffer :=
  (λ b, if Byte.eqb b "`"%byte then x22 else b) <$> buffer_of s.

End Sample.

(** ** Sample traffic

    Frames, jobs and states for the examples.  In the texts [`] stands for
    the double quote. *)
Module Examples.

Definition env0 : Env := mkEnv 1000 (js "2026-01-01T00:00:01.000Z") 4242.
Definition env1 : Env := mkEnv 1060 (js "2026-01-01T00:00:01.060Z") 17.

Definition request (token name rid body : string) : jsstring :=
  Sample.text ("{`header`:{`auth_token`:`" +:+ token +:+ "`,`method`:`" +:+ name
               +:+ "`,`timestamp`:0,`request_id`:`" +:+ rid +:+ "`},`body`:"
               +:+ body +:+ "}").

Definition ping : jsstring := request "SECRET_123" "PING" "r1" "{}".
Definition balance : jsstring := request "SECRET_123" "CHECK_BALANCE" "r2" "{`user_id`:7}".
Definition intruder : jsstring := request "WRONG" "PING" "r3" "{}".
Definition nope : jsstring := request "SECRET_123" "NOPE" "r4" "{}".
Definition upload : jsstring :=
  request "SECRET_123" "UPLOAD_FILE" "r5" "{`filename`:`notes.txt`,`content`:`hello`}".
Definition garbage : jsstring := Sample.text "{`header`:".

(** A request with a wrong token whose method is not a string but an object
    with a [toString] property, which no conversion to a string can use. *)
Definition unprintable : jsstring :=
  Sample.text
    "{`header`:{`auth_token`:`WRONG`,`method`:{`toString`:1},`request_id`:`r8`},`body`:{}}".
Definition blank : jsstring := js "  ".

(** The bytes of ASCII frames on the wire, each with its terminator. *)
Definition wire (frames : list jsstring) : Buffer :=
  (λ c, default x00 (Byte.of_N c)) <$> (frames ≫= framed).

(** An upload whose file name has accented letters, two bytes each in
    UTF-8. *)
Definition accented_upload : Buffer :=
  Sample.bytes
    "{`header`:{`auth_token`:`SECRET_123`,`method`:`UPLOAD_FILE`,`timestamp`:0,`request_id`:`r6`},`body`:{`filename`:`résumé.txt`,`content`:`x`}}".

Definition nope_job : Job :=
  mkJob (VStr (js "NOPE")) (VObj []) (VStr (js "r4")) 0 1000 0.

(** One connection accepted, nothing received yet. *)
Definition connected : State :=
  with_sockets (<[0%nat := fresh_socket]> ∅) (initial 0).

(** The job [j] of connection 0 has been shifted; its activation is at the
    delay. *)
Definition working (j : Job) : State :=
  with_begun [0%nat]
    (with_admitted [0%nat]
       (with_workers [mkWorker j Sleeping] (with_isProcessing true connected))).

(** Two clients send one request each. *)
Definition two_clients : list event :=
  [Accept 0; Accept 1; Data 0 (wire [ping]) env0; Data 1 (wire [balance]) env0].

(** Both requests are served, one after the other. *)
Definition both_served : list event :=
  two_clients ++ [TimerFired 0 env0; Immediate; TimerFired 0 env1; Immediate].

End Examples.

(** ** A sample caller *)
Module Caller.

(** A reading of the clock and of the random generator. *)
Definition cenv0 : ClientEnv := mkClientEnv 1700000000000 1700000000001 (js "k3j9x0q2a").

(** A call of the stub whose socket is connected and whose packet is sent. *)
Definition waiting (packet : jsstring) : Call := mkCall [] true Open None [packet].

End Caller.

Section Server.

(** The built-ins of the language the program calls: [JSON.parse] ([None]
    when it throws its [SyntaxError]), [JSON.stringify], and the
    conversion of a number to a string. *)
Variable JSON_parse : jsstring → option value.
Variable JSON_stringify : value → jsstring.
Variable Number_toString : Q → jsstring.

(** [ToString], as the template literal [`${v}`] applies it.  An array is
    joined with commas.  An object is converted by the [toString] it
    inherits, unless it has a [toString] property of its own: a property
    read from JSON is never a function, the inherited [valueOf] returns the
    object itself, and the conversion throws. *)
Fixpoint ToString (v : value) : completion jsstring :=
  match v with
  | VUndefined => Normal (js "undefined")
  | VNull => Normal (js "null")
  | VBool true => Normal (js "true")
  | VBool false => Normal (js "false")
  | VNum q => Normal (Number_toString q)
  | VStr s => Normal s
  | VArr items =>
      (fix join (l : list value) : completion jsstring :=
         match l with
         | [] => Normal []
         | x :: l' =>
             first ← match x with VUndefined | VNull => Normal [] | _ => ToString x end;
             match l' with
             | [] => Normal first
             | _ :: _ => others ← join l'; Normal (first ++ js "," ++ others)
             end
         end) items
  | VObj props =>
      match own_property (js "toString") props with
      | Some _ => Throw (TypeError (js "Cannot convert object to primitive value"))
      | None => Normal (js "[object Object]")
      end
  end.

(** [parseMessage]: [JSON.parse(rawData.toString().trim())], any failure
    rethrown as one fixed error. *)
Definition parseMessage (rawData : jsstring) : completion value :=
  match JSON_parse (trim rawData) with
  | Some message => Normal message
  | None => Throw (Error (js "Failed to unmarshal message: Invalid JSON"))
  end.

(** [createResponse(status, result, requestId = null)]: the default
    applies when the argument is [undefined]. *)
Definition createResponse (env : Env) (status : jsstring) (result : value)
    (requestId : value) : jsstring :=
  JSON_stringify
    (VObj [(js "status", VStr status);
           (js "result", result);
           (js "request_id", match requestId with VUndefined => VNull | r => r end);
           (js "timestamp", VInt (now env))])
  ++ [LF].

(** ** The worker *)

(** [processQueue], from its call to its first [await]: the guard, the
    flag, the [shift].  The activation is then suspended at the delay.  The
    log lines of the worker convert [job.method], which the connection
    callback has converted, without exception, before it queued the job
    (lemma [jobs_printable_invariant]). *)
Definition processQueue (st : State) : State :=
  if isProcessing st || bool_decide (length (processingQueue st) = 0%nat) then st
  else
    match processingQueue st with
    | [] => st
    | j :: rest =>
        with_begun (begun st ++ [jid j])
          (with_workers (workers st ++ [mkWorker j Sleeping])
             (with_queue rest (with_isProcessing true st)))
    end.

(** The object [UPLOAD_FILE] returns. *)
Definition upload_result (env : Env) (payload : value) : completion value :=
  filename ← get payload (js "filename");
  content ← get payload (js "content");
  size ← (if truthy content then get content (js "length") else Normal (VInt 0));
  Normal (VObj [(js "message", VStr (js "File uploaded successfully"));
                (js "filename", filename);
                (js "size", size);
                (js "storedAt", VStr (iso env))]).

(** The argument object of the audit call; evaluating it may throw. *)
Definition upload_mutation (payload : value) : completion Mutation :=
  filename ← get payload (js "filename");
  content ← get payload (js "content");
  size ← (if truthy content then get content (js "length") else Normal (VInt 0));
  preview ← (if truthy content then substring_0_50 content else Normal (VStr []));
  Normal (mkMutation filename size preview).

(** [executeMethod(method, payload)] up to its end or its [await].  Its
    first line logs [`${method}`].  In the [UPLOAD_FILE] case the log line
    converts [payload.filename] outside the [try]; an exception while the
    arguments of the audit call are built is caught by the [try] around the
    call. *)
Definition executeMethod (env : Env) (start : Z) (method payload : value) : running :=
  match ToString method with
  | Throw e => Done (Throw e)
  | Normal name =>
  if strict_equals method RPC_METHODS.UPLOAD_FILE then
    match filename ← get payload (js "filename"); ToString filename with
    | Throw e => Done (Throw e)
    | Normal _ =>
        match upload_mutation payload with
        | Normal call => Await call
        | Throw _ => Done (upload_result env payload)
        end
    end
  else if strict_equals method RPC_METHODS.LIST_FILES then
    Done (Normal (VObj
      [(js "files", VArr [VObj [(js "name", VStr (js "example.txt"));
                                (js "size", VInt 1024);
                                (js "modified", VInt (now env))]]);
       (js "message", VStr (js "Files retrieved from RPC server"))]))
  else if strict_equals method RPC_METHODS.DELETE_FILE then
    Done (filename ← get payload (js "filename");
          Normal (VObj [(js "message", VStr (js "File deleted successfully"));
                        (js "filename", filename);
                        (js "deletedAt", VStr (iso env))]))
  else if strict_equals method RPC_METHODS.CHECK_BALANCE then
    Done (user_id ← get payload (js "user_id");
          Normal (VObj [(js "user_id", user_id);
                        (js "balance", VInt (random10000 env));
                        (js "currency", VStr (js "USD"))]))
  else if strict_equals method RPC_METHODS.PING then
    Done (Normal (VObj [(js "pong", VBool true);
                        (js "serverTime", VInt (now env));
                        (js "uptime", VNum (Qmake (now env - start) 1000))]))
  else
    Done (Throw (Error (js "Unknown method: " ++ name)))
  end.

(** [executeMethod] from the point where the audit call has settled, with a
    value or with a rejection: the [await] inside [try] returns or throws,
    the [catch] logs the message of the error and goes on, and the result
    object is returned. *)
Definition resumeMethod (env : Env) (payload : value) (settled : completion value) :
    completion value :=
  _ ← match settled with
      | Normal _ => Normal tt
      | Throw err => let _ := message err in Normal tt
      end;
  upload_result env payload.

(** The [try] and [catch] of [processQueue] once [executeMethod] has
    completed: the response, if the socket of the job is still there, and
    the counters. *)
Definition respond (j : Job) (env : Env) (outcome : completion value)
    (st : State) : State :=
  match outcome with
  | Normal result =>
      count_processed
        (if writable j st
         then socket_write (socket j)
                (createResponse env (js "OK") result (requestId j)) st
         else st)
  | Throw e =>
      let st' := count_error st in
      if writable j st'
      then socket_write (socket j)
             (createResponse env (js "ERROR") (VStr (message e)) (requestId j)) st'
      else st'
  end.

(** The rest of [processQueue] for the activation at index [i]: the
    response, then the flag is cleared and [setImmediate(processQueue)] is
    called; the activation is over. *)
Definition complete (i : nat) (env : Env) (outcome : completion value)
    (st : State) : State :=
  match workers st !! i with
  | None => st
  | Some w =>
      let st1 := respond (job w) env outcome st in
      with_immediates (S (immediates st1))
        (with_workers (delete i (workers st1))
           (with_isProcessing false st1))
  end.

(** ** The connection callback *)

(** [processingQueue.push({...})]; the job gets the next serial number. *)
Definition push (c : nat) (env : Env) (m body rid : value) (st : State) : State :=
  let j := mkJob m body rid c (now env) (length (admitted st)) in
  with_admitted (admitted st ++ [jid j])
    (with_queue (processingQueue st ++ [j]) st).

(** The body of [for (const rawMessage of messages)] on connection [c]. *)
Definition on_message (c : nat) (env : Env) (rawMessage : jsstring) : stmt flow :=
  if is_empty (trim rawMessage) then mret Next
  else
    try_catch
      (message ← eval (parseMessage rawMessage);
       header ← eval (get message (js "header"));
       logged ← eval (get header (js "method"));
       _ ← eval (ToString logged);
       token ← eval (get header (js "auth_token"));
       if negb (strict_equals token AUTH_TOKEN) then
         rid ← eval (get header (js "request_id"));
         exec (socket_write c (createResponse env (js "ERROR") (VStr (js "Unauthorized")) rid));;
         exec (socket_end c);;
         mret Return
       else
         m ← eval (get header (js "method"));
         body ← eval (get message (js "body"));
         rid ← eval (get header (js "request_id"));
         exec (push c env m body rid);;
         exec processQueue;;
         mret Next)
      (λ _,
         exec count_error;;
         exec (socket_write c
                 (createResponse env (js "ERROR") (VStr (js "Invalid message format"))
                    VUndefined));;
         mret Next).

(** The loop over the complete messages. *)
Fixpoint for_messages (c : nat) (env : Env) (messages : list jsstring) : stmt flow :=
  match messages with
  | [] => mret Next
  | rawMessage :: rest =>
      r ← on_message c env rawMessage;
      match r with
      | Return => mret Return
      | Next => for_messages c env rest
      end
  end.

(** [buffer += data.toString(); messages = buffer.split('\n');
    buffer = messages.pop()]: the complete messages and the new buffer.
    [split] never returns an empty array; were [pop] to return [undefined],
    the next [+=] would read it as the string "undefined". *)
Definition feed (buf : jsstring) (data : Buffer) : list jsstring * jsstring :=
  let '(messages, last) := pop (split (buf ++ toString data)) in
  (messages, default (js "undefined") last).

(** The framing of a sequence of chunks arriving one after the other on
    one connection: all the complete messages, in order, and the buffer
    left. *)
Fixpoint feed_all (buf : jsstring) (chunks : list Buffer) : list jsstring * jsstring :=
  match chunks with
  | [] => ([], buf)
  | data :: rest =>
      let '(messages, buf') := feed buf data in
      let '(messages', final) := feed_all buf' rest in
      (messages ++ messages', final)
  end.

(** The ['data'] callback of connection [c]. *)
Definition on_data (c : nat) (env : Env) (data : Buffer) (st : State) : State :=
  match sockets st !! c with
  | None => st
  | Some s =>
      let st1 := count_received st in
      let '(messages, buf) := feed (buffer s) data in
      let st2 := set_buffer c buf st1 in
      fst (for_messages c env messages st2)
  end.

(** ** The event loop *)

Definition set_phase (i : nat) (p : phase) (st : State) : State :=
  with_workers (alter (λ w, mkWorker (job w) p) i (workers st)) st.

(** One turn; [None] when the event cannot occur in the state. *)
Definition step (ev : event) (st : State) : option State :=
  match ev with
  | Accept c =>
      match sockets st !! c with
      | None => Some (with_sockets (<[c := fresh_socket]> (sockets st)) st)
      | Some _ => None
      end
  | Data c data env =>
      match sockets st !! c with
      | Some s => if destroyed s then None else Some (on_data c env data st)
      | None => None
      end
  | Timeout c =>
      match sockets st !! c with
      | Some s => if destroyed s then None else Some (socket_end c st)
      | None => None
      end
  | Close c =>
      match sockets st !! c with
      | Some s => Some (socket_destroy c st)
      | None => None
      end
  | TimerFired i env =>
      match workers st !! i with
      | Some (mkWorker j Sleeping) =>
          match executeMethod env (startTime (stats st)) (method j) (payload j) with
          | Done outcome => Some (complete i env outcome st)
          | Await call =>
              Some (set_phase i AwaitingSink
                      (with_mutations (mutations st ++ [call]) st))
          end
      | _ => None
      end
  | Settled i settled env =>
      match workers st !! i with
      | Some (mkWorker j AwaitingSink) =>
          Some (complete i env (resumeMethod env (payload j) settled) st)
      | _ => None
      end
  | Immediate =>
      match immediates st with
      | O => None
      | S n => Some (processQueue (with_immediates n st))
      end
  end.

(** A run of the server. *)
Fixpoint run (evs : list event) (st : State) : option State :=
  match evs with
  | [] => Some st
  | ev :: evs' =>
      match step ev st with
      | Some st' => run evs' st'
      | None => None
      end
  end.

(** The states the server can be in. *)
Inductive reachable : State → Prop :=
| reachable_initial start : reachable (initial start)
| reachable_step st ev st' :
    reachable st → step ev st = Some st' → reachable st'.

(** ** Views of the state and of a frame *)

(** What the [try] block reads from a frame before it acts, in the order
    it reads: the parsed message, its [header], [header.method] converted
    for the log line, then the token, the request id and the body. *)
Definition admission (rawMessage : jsstring) : completion (value * value * value * value) :=
  message ← parseMessage rawMessage;
  header ← get message (js "header");
  m ← get header (js "method");
  _ ← ToString m;
  token ← get header (js "auth_token");
  rid ← get header (js "request_id");
  body ← get message (js "body");
  mret (m, body, rid, token).

(** The state without the sockets and the counters: the queue, the flag,
    the suspended activations, the scheduled callbacks, the audit calls and
    the two logs. *)
Definition jobs_view (st : State) :=
  (processingQueue st, isProcessing st, workers st, immediates st,
   mutations st, admitted st, begun st).

(** The number of activations between their [shift] and the end of their
    response agrees with the flag. *)
Definition flag_counts_workers (st : State) : Prop :=
  length (workers st) = if isProcessing st then 1%nat else 0%nat.

(** The jobs admitted so far are those that have begun, in the order they
    began, followed by those still queued, in queue order; and the serial
    numbers count the admissions. *)
Definition fifo_logs (st : State) : Prop :=
  admitted st = begun st ++ (jid <$> processingQueue st)
  ∧ admitted st = seq 0 (length (admitted st)).

(** The method of every job, queued or being executed, converts to a
    string. *)
Definition jobs_printable (st : State) : Prop :=
  ∀ j, j ∈ processingQueue st ∨ j ∈ job <$> workers st →
       ∃ name, ToString (method j) = Normal name.

(** ** Further views of the state *)

(** A queue that holds a job is being served or will be: an activation is
    running, or a [setImmediate(processQueue)] callback is scheduled. *)
Definition worker_is_awake (st : State) : Prop :=
  processingQueue st ≠ [] → isProcessing st = true ∨ (0 < immediates st)%nat.

(** The jobs that have been shifted and whose activation is over. *)
Definition finished (st : State) : nat :=
  (length (begun st) - length (workers st))%nat.

(** What the counters count: every finished job was counted as processed or
    as an error, and only finished jobs are counted as processed. *)
Definition counters_account (st : State) : Prop :=
  (length (workers st) ≤ length (begun st))%nat
  ∧ (totalProcessed (stats st) ≤ finished st)%nat
  ∧ (finished st ≤ totalProcessed (stats st) + totalErrors (stats st))%nat.

(** No read buffer holds a terminator. *)
Definition buffers_are_partial (st : State) : Prop :=
  ∀ c s, sockets st !! c = Some s → LF ∉ buffer s.

(** The turns the worker takes by itself, with no connection involved. *)
Definition worker_turn (ev : event) : Prop :=
  match ev with
  | TimerFired _ _ | Settled _ _ _ | Immediate => True
  | _ => False
  end.

(** The chunks among the events of a run. *)
Definition is_chunk (ev : event) : bool :=
  match ev with Data _ _ _ => true | _ => false end.
Fixpoint chunks_in (evs : list event) : nat :=
  match evs with
  | [] => 0
  | ev :: evs' => ((if is_chunk ev then 1 else 0) + chunks_in evs')%nat
  end.

(** What [await executeMethod(job.method, job.payload)] comes to in
    [processQueue]: the completion of the handler when it awaits nothing,
    and otherwise its completion once the audit call has settled, one way or
    the other. *)
Definition handled (env : Env) (start : Z) (m body : value)
    (outcome : completion value) : Prop :=
  match executeMethod env start m body with
  | Done o => outcome = o
  | Await _ => ∃ settled, outcome = resumeMethod env body settled
  end.

(** The response [processQueue] writes for a job: [OK] with the result in
    the [try], [ERROR] with [error.message] in the [catch]. *)
Definition reply (env : Env) (outcome : completion value) (rid : value) : jsstring :=
  match outcome with
  | Normal result => createResponse env (js "OK") result rid
  | Throw e => createResponse env (js "ERROR") (VStr (message e)) rid
  end.

(** ** protocol.js and the stub: marshalling *)

(** [`req_${Date.now()}_${Math.random().toString(36).substr(2, 9)}`] *)
Definition fresh_request_id (cenv : ClientEnv) : jsstring :=
  js "req_" ++ Number_toString (inject_Z (stamp_id cenv)) ++ js "_" ++ random_id cenv.

(** The message [createMessage] builds, as an object, with the header
    fields in the order they are written. *)
Definition pdu_of (cenv : ClientEnv) (method payload authToken : value) : value :=
  VObj [(js "header",
         VObj [(js "auth_token", authToken);
               (js "timestamp", VInt (stamp cenv));
               (js "method", method);
               (js "request_id", VStr (fresh_request_id cenv))]);
        (js "body", payload)].

(** [createMessage(method, payload, authToken)] of protocol.js:
    [JSON.stringify(message) + "\n"]. *)
Definition createMessage (cenv : ClientEnv) (method payload authToken : value) : jsstring :=
  JSON_stringify (pdu_of cenv method payload authToken) ++ [LF].

(** The PDU of the stub's [POST]: the same fields, [method] before
    [timestamp], and the stub's own copy of the secret, "SECRET_123". *)
Definition stub_pdu (cenv : ClientEnv) (method payload : value) : value :=
  VObj [(js "header",
         VObj [(js "auth_token", VStr (js "SECRET_123"));
               (js "method", method);
               (js "timestamp", VInt (stamp cenv));
               (js "request_id", VStr (fresh_request_id cenv))]);
        (js "body", payload)].

(** [packet] in [POST]: [JSON.stringify(pdu) + '\n']. *)
Definition stub_packet (cenv : ClientEnv) (method payload : value) : jsstring :=
  JSON_stringify (stub_pdu cenv method payload) ++ [LF].

(** ** The stub: [sendToRpcServer] *)

(** The call as [sendToRpcServer] leaves it: the timeout armed, the socket
    connecting, the promise pending. *)
Definition call_started : Call := mkCall [] true Connecting None [].

(** [resolve(v)] or [reject(e)]: the first one settles the promise, a later
    one does nothing. *)
Definition settle (o : completion value) (cl : Call) : Call :=
  match promise cl with
  | None => mkCall (responseBuffer cl) (armed cl) (wire_state cl) (Some o) (sent cl)
  | Some _ => cl
  end.

Definition with_wire (l : link) (cl : Call) : Call :=
  mkCall (responseBuffer cl) (armed cl) l (promise cl) (sent cl).

(** [client.destroy()]: nothing happens on a socket that has closed. *)
Definition client_destroy (cl : Call) : Call :=
  match wire_state cl with
  | Closed => cl
  | _ => with_wire Destroyed cl
  end.

(** [clearTimeout(timeout)] *)
Definition clearTimeout (cl : Call) : Call :=
  mkCall (responseBuffer cl) false (wire_state cl) (promise cl) (sent cl).

(** [s.includes('\n')] *)
Definition includes_LF (s : jsstring) : bool := bool_decide (LF ∈ s).

(** The ['data'] callback of the stub: the chunk is appended; once the
    buffer holds a terminator the timeout is cleared, the whole buffer,
    trimmed, is parsed, the socket is destroyed and the promise settled. *)
Definition stub_on_data (data : Buffer) (cl : Call) : Call :=
  let buf := responseBuffer cl ++ toString data in
  let cl1 := mkCall buf (armed cl) (wire_state cl) (promise cl) (sent cl) in
  if includes_LF buf then
    match JSON_parse (trim buf) with
    | Some response => settle (Normal response) (client_destroy (clearTimeout cl1))
    | None =>
        settle (Throw (Error (js "Failed to parse RPC response")))
          (client_destroy (clearTimeout cl1))
    end
  else cl1.

(** The ['error'] callback; the socket is destroyed after it. *)
Definition stub_on_error (msg : jsstring) (cl : Call) : Call :=
  with_wire Destroyed
    (settle (Throw (Error (js "RPC connection failed: " ++ msg))) (clearTimeout cl)).

(** The ['close'] callback. *)
Definition stub_on_close (cl : Call) : Call :=
  let cl1 := clearTimeout cl in
  with_wire Closed
    (if negb (is_empty (responseBuffer cl1)) && negb (includes_LF (responseBuffer cl1))
     then settle (Throw (Error (js "Connection closed before response received"))) cl1
     else cl1).

(** The timeout callback, after which the timer is spent:
    [client.destroy()], then the rejection. *)
Definition stub_on_timeout (cl : Call) : Call :=
  settle (Throw (Error (js "RPC server timeout"))) (client_destroy (clearTimeout cl)).

(** One event of a call of [sendToRpcServer(packet)]; [None] when the event
    cannot occur: a timeout that is not armed, a chunk on a socket that is
    not open, an error on a socket that is already destroyed, a second
    ['close']. *)
Definition stub_step (packet : jsstring) (ev : stub_event) (cl : Call) : option Call :=
  match ev, wire_state cl with
  | SConnect, Connecting =>
      Some (mkCall (responseBuffer cl) (armed cl) Open (promise cl) (sent cl ++ [packet]))
  | SData data, Open => Some (stub_on_data data cl)
  | SError msg, (Connecting | Open) => Some (stub_on_error msg cl)
  | SClose, (Open | Destroyed) => Some (stub_on_close cl)
  | STimeout, _ => if armed cl then Some (stub_on_timeout cl) else None
  | _, _ => None
  end.

Fixpoint stub_run (packet : jsstring) (evs : list stub_event) (cl : Call) : option Call :=
  match evs with
  | [] => Some cl
  | ev :: evs' =>
      match stub_step packet ev cl with
      | Some cl' => stub_run packet evs' cl'
      | None => None
      end
  end.

(** What holds of a call at every moment: while the socket is connecting
    or open the promise is pending, the timeout armed and the buffer without
    a terminator; once the socket is destroyed the promise is settled; the
    timeout is armed at no other moment. *)
Definition call_consistent (cl : Call) : Prop :=
  match wire_state cl with
  | Connecting => promise cl = None ∧ armed cl = true ∧ responseBuffer cl = []
  | Open => promise cl = None ∧ armed cl = true ∧ LF ∉ responseBuffer cl
  | Destroyed => promise cl ≠ None ∧ armed cl = false
  | Closed => armed cl = false ∧ (promise cl = None → responseBuffer cl = [])
  end.

(** ** Framing *)

Lemma split_nonempty (s : jsstring) : split s ≠ [].
Proof.
  destruct s as [|c s]; simpl; [done|].
  destruct (c =? LF); [done|]. by destruct (split s).
Qed.

Lemma split_no_LF (s : jsstring) : LF ∉ s → split s = [s].
Proof.
  induction s as [|c s IH]; intros Hs; simpl; [done|].
  apply not_elem_of_cons in Hs as [Hc Hs].
  destruct (N.eqb_spec c LF) as [->|_]; [done|].
  by rewrite (IH Hs).
Qed.

Lemma split_app_LF (a b : jsstring) : LF ∉ a → split (a ++ LF :: b) = a :: split b.
Proof.
  induction a as [|c a IH]; intros Ha; simpl; [done|].
  apply not_elem_of_cons in Ha as [Hc Ha].
  destruct (N.eqb_spec c LF) as [->|_]; [done|].
  by rewrite (IH Ha).
Qed.

(** [split] returns some complete pieces and a last piece free of
    terminators. *)
Lemma split_last (s : jsstring) : ∃ ms b, split s = ms ++ [b] ∧ LF ∉ b.
Proof.
  induction s as [|c s (ms & b & Hs & Hb)]; simpl.
  - exists [], []. split; [done|]. apply not_elem_of_nil.
  - destruct (N.eqb_spec c LF) as [->|Hc].
    + exists ([] :: ms), b. by rewrite Hs.
    + rewrite Hs. destruct ms as [|m ms]; simpl.
      * exists [], (c :: b). split; [done|]. by apply not_elem_of_cons.
      * by exists ((c :: m) :: ms), b.
Qed.

(** Appending text only extends the last piece. *)
Lemma split_app (x y : jsstring) ms b :
  split x = ms ++ [b] → split (x ++ y) = ms ++ split (b ++ y).
Proof.
  revert ms b. induction x as [|c x IH]; intros ms b; simpl.
  - destruct ms as [|m [|m' ms]]; simpl; intros [=]; by subst.
  - destruct (N.eqb_spec c LF) as [->|Hc].
    + destruct ms as [|m ms]; simpl.
      * intros [= _ Hx]. by destruct (split_nonempty x).
      * intros [= <- Hx]. by rewrite (IH _ _ Hx).
    + destruct (split_last x) as (ms' & b' & Hx & _).
      rewrite (IH _ _ Hx), Hx.
      destruct ms' as [|m' ms']; simpl.
      * destruct ms as [|m [|m'' ms]]; simpl; intros [=]; subst.
        simpl. by destruct (N.eqb_spec c LF).
      * change ((c :: m') :: ms' ++ [b']) with (((c :: m') :: ms') ++ [b']).
        intros [<- <-]%app_inj_tail. done.
Qed.

Lemma pop_snoc {A} (l : list A) (x : A) : pop (l ++ [x]) = (l, Some x).
Proof.
  induction l as [|y l IH]; simpl; [done|].
  rewrite IH. by destruct l.
Qed.

Lemma split_encoded (msgs : list jsstring) (rest : jsstring) :
  Forall (λ m, LF ∉ m) msgs → LF ∉ rest →
  split (concat (framed <$> msgs) ++ rest) = msgs ++ [rest].
Proof.
  intros Hmsgs Hrest. induction Hmsgs as [|m msgs Hm _ IH]; csimpl.
  - by apply split_no_LF.
  - unfold framed at 1. rewrite <- !app_assoc. simpl app at 2.
    by rewrite split_app_LF, IH.
Qed.

Lemma feed_split (buf : jsstring) (data : Buffer) ms b :
  split (buf ++ toString data) = ms ++ [b] → feed buf data = (ms, b).
Proof. unfold feed. intros ->. by rewrite pop_snoc. Qed.

(** Feeding chunk after chunk frames the text the chunks decode to, one
    after the other, as if it had arrived at once. *)
Lemma feed_all_split (chunks : list Buffer) (buf : jsstring) ms b :
  LF ∉ buf →
  split (buf ++ concat (toString <$> chunks)) = ms ++ [b] →
  feed_all buf chunks = (ms, b).
Proof.
  revert buf ms b. induction chunks as [|data chunks IH]; intros buf ms b Hbuf; csimpl.
  - rewrite app_nil_r, (split_no_LF _ Hbuf).
    destruct ms as [|m [|m' ms]]; simpl; intros [=]; by subst.
  - destruct (split_last (buf ++ toString data)) as (ms1 & b1 & H1 & Hb1).
    rewrite app_assoc, (split_app _ _ _ _ H1), (feed_split _ _ _ _ H1).
    destruct (split_last (b1 ++ concat (toString <$> chunks))) as (ms2 & b2 & H2 & _).
    rewrite H2, (IH _ _ _ Hb1 H2), app_assoc.
    by intros [<- <-]%app_inj_tail.
Qed.

(** The round trip on decoded text: when the chunks decode, one after the
    other, to the PDUs followed by a partial message, the messages come out
    in order and the partial message stays in the buffer. *)
Lemma framing_roundtrip_decoded (msgs : list jsstring) (rest : jsstring)
    (chunks : list Buffer) :
  Forall (λ m, LF ∉ m) msgs → LF ∉ rest →
  concat (toString <$> chunks) = concat (framed <$> msgs) ++ rest →
  feed_all [] chunks = (msgs, rest).
Proof.
  intros Hmsgs Hrest Hchunks. apply feed_all_split; [apply not_elem_of_nil|].
  simpl. rewrite Hchunks. by apply split_encoded.
Qed.

Lemma lead_ascii (b : N) : b < 128 → Utf8.lead b = ([b], Utf8.idle).
Proof.
  intros Hb. unfold Utf8.lead. by destruct (N.leb_spec b 127) as [_|?]; [|lia].
Qed.

Lemma code_points_ascii (bs : list N) :
  Forall (λ b, b < 128) bs → Utf8.code_points Utf8.idle bs ≫= Utf8.utf16 = bs.
Proof.
  induction 1 as [|b bs Hb _ IH]; [done|].
  change (Utf8.code_points Utf8.idle (b :: bs))
    with (let '(out, st') := Utf8.lead b in out ++ Utf8.code_points st' bs).
  rewrite (lead_ascii _ Hb). simpl app. rewrite bind_cons, IH.
  unfold Utf8.utf16. by destruct (N.ltb_spec b 65536) as [_|?]; [|lia].
Qed.

Lemma toString_ascii (data : Buffer) :
  ascii_only data → toString data = Byte.to_N <$> data.
Proof.
  intros H. unfold toString, Utf8.decode. apply code_points_ascii.
  by apply Forall_fmap.
Qed.

Lemma toString_concat_ascii (chunks : list Buffer) :
  Forall ascii_only chunks →
  concat (toString <$> chunks) = toString (concat chunks).
Proof.
  intros H. rewrite (toString_ascii (concat chunks)).
  - induction H as [|d chunks Hd _ IH]; csimpl; [done|].
    by rewrite fmap_app, IH, (toString_ascii _ Hd).
  - unfold ascii_only. by apply Forall_concat.
Qed.

Lemma LF_to_N (p : Buffer) : x0a ∉ p → LF ∉ Byte.to_N <$> p.
Proof.
  intros Hp (b & Hb & Hin)%list_elem_of_fmap. apply Hp.
  assert (Some b = Some x0a) as [= <-]; [|done].
  rewrite <- (Byte.of_to_N b), <- Hb. done.
Qed.

Lemma to_N_encoded (pdus : list Buffer) :
  Byte.to_N <$> concat ((λ p, p ++ [x0a]) <$> pdus)
  = concat (framed <$> ((fmap Byte.to_N) <$> pdus)).
Proof.
  induction pdus as [|p pdus IH]; csimpl; [done|].
  by rewrite !fmap_app, IH.
Qed.

(** X2. The round trip on bytes, for ASCII traffic: however the stream of PDUs
    is cut into chunks, the messages come out in order and the bytes after
    the last terminator stay in the buffer. *)
Lemma framing_roundtrip_ascii (pdus : list Buffer) (rest : Buffer)
    (chunks : list Buffer) :
  Forall (λ p, ascii_only p ∧ x0a ∉ p) pdus → ascii_only rest → x0a ∉ rest →
  concat chunks = concat ((λ p, p ++ [x0a]) <$> pdus) ++ rest →
  feed_all [] chunks = (toString <$> pdus, toString rest).
Proof.
  intros Hpdus Hrest Hrest' Hchunks.
  assert (ascii_only (concat ((λ p, p ++ [x0a]) <$> pdus))) as Hstream.
  { unfold ascii_only. apply Forall_concat, Forall_fmap.
    eapply Forall_impl; [exact Hpdus|]. intros p [Hp _]. simpl.
    apply Forall_app. split; [exact Hp|]. by repeat constructor. }
  assert (Forall ascii_only chunks) as Hascii.
  { apply Forall_concat. rewrite Hchunks. by apply Forall_app. }
  assert (toString <$> pdus = (fmap Byte.to_N) <$> pdus) as ->.
  { apply Forall_fmap_ext_1. eapply Forall_impl; [exact Hpdus|].
    intros p [Hp _]. by apply toString_ascii. }
  apply framing_roundtrip_decoded.
  - apply Forall_fmap. eapply Forall_impl; [exact Hpdus|].
    intros p [_ Hp]. by apply LF_to_N.
  - rewrite (toString_ascii _ Hrest). by apply LF_to_N.
  - rewrite (toString_concat_ascii _ Hascii), Hchunks.
    rewrite toString_ascii by (by apply Forall_app).
    by rewrite fmap_app, to_N_encoded, (toString_ascii _ Hrest).
Qed.

(** ** The connection callback, case by case *)

Ltac run_stmt :=
  unfold try_catch, mbind, stmt_bind, completion_bind, mret, stmt_ret,
    completion_ret, eval, exec; simpl.

Lemma get_Normal_any (v : value) (k k' : jsstring) (x : value) :
  get v k = Normal x → ∃ y, get v k' = Normal y.
Proof. destruct v; simpl; intros [=]; eauto. Qed.

(** The iteration on one frame: a blank frame is skipped; a frame that
    cannot be read is answered with the format error; a frame with the
    wrong token is answered and ends the callback; any other frame is
    queued and the worker is woken. *)
Lemma on_message_eq (c : nat) (env : Env) (raw : jsstring) (st : State) :
  on_message c env raw st =
    if is_empty (trim raw) then (st, Normal Next)
    else match admission raw with
         | Throw _ =>
             (socket_write c
                (createResponse env (js "ERROR") (VStr (js "Invalid message format"))
                   VUndefined) (count_error st), Normal Next)
         | Normal (m, body, rid, token) =>
             if strict_equals token AUTH_TOKEN
             then (processQueue (push c env m body rid st), Normal Next)
             else (socket_end c
                     (socket_write c
                        (createResponse env (js "ERROR") (VStr (js "Unauthorized")) rid)
                        st), Normal Return)
         end.
Proof.
  unfold on_message, admission. destruct (is_empty (trim raw)); [done|].
  run_stmt. destruct (parseMessage raw) as [message|e]; simpl; [|done].
  destruct (get message (js "header")) as [header|e] eqn:Hh; simpl; [|done].
  destruct (get header (js "method")) as [m|e] eqn:Hm; simpl; [|done].
  destruct (ToString m) as [name|e]; simpl; [|done].
  destruct (get_Normal_any _ _ (js "auth_token") _ Hm) as [token ->].
  destruct (get_Normal_any _ _ (js "request_id") _ Hm) as [rid ->].
  destruct (get_Normal_any _ _ (js "body") _ Hh) as [body ->]. simpl.
  by destruct (strict_equals token AUTH_TOKEN).
Qed.

Lemma for_messages_cons (c : nat) (env : Env) (raw : jsstring) (rest : list jsstring)
    (st : State) :
  for_messages c env (raw :: rest) st =
    match on_message c env raw st with
    | (st', Normal Next) => for_messages c env rest st'
    | (st', Normal Return) => (st', Normal Return)
    | (st', Throw e) => (st', Throw e)
    end.
Proof.
  simpl. unfold mbind, stmt_bind.
  by destruct (on_message c env raw st) as [st' [[]|]].
Qed.

(** The iteration never throws: the [catch] handles every exception. *)
Lemma on_message_flow (c : nat) (env : Env) (raw : jsstring) (st : State) :
  ∃ r, snd (on_message c env raw st) = Normal r.
Proof.
  rewrite on_message_eq. destruct (is_empty (trim raw)); [by eexists|].
  destruct (admission raw) as [[[[m body] rid] token]|]; [|by eexists].
  destruct (strict_equals token AUTH_TOKEN); by eexists.
Qed.

Lemma respond_view (j : Job) (env : Env) (outcome : completion value) (st : State) :
  jobs_view (respond j env outcome st) = jobs_view st.
Proof. destruct outcome; simpl; by repeat case_match. Qed.

Lemma admission_printable (raw : jsstring) (m body rid token : value) :
  admission raw = Normal (m, body, rid, token) → ∃ name, ToString m = Normal name.
Proof.
  unfold admission. destruct (parseMessage raw) as [message|]; [|done]. simpl.
  destruct (get message (js "header")) as [header|]; [|done]. simpl.
  destruct (get header (js "method")) as [m'|]; [|done]. simpl.
  destruct (ToString m') as [name|] eqn:Hname; [|done]. simpl.
  destruct (get header (js "auth_token")); [|done]. simpl.
  destruct (get header (js "request_id")); [|done]. simpl.
  destruct (get message (js "body")); [|done]. simpl.
  intros [= <- _ _ _]. by exists name.
Qed.

(** ** Invariants of the event loop *)

Section Invariants.

Variable P : State → Prop.
Hypothesis P_view : ∀ st st', jobs_view st = jobs_view st' → P st → P st'.
Hypothesis P_initial : ∀ start, P (initial start).
Hypothesis P_push : ∀ c env m b r st name,
  ToString m = Normal name → P st → P (push c env m b r st).
Hypothesis P_processQueue : ∀ st, P st → P (processQueue st).
Hypothesis P_finish : ∀ i w st,
  workers st !! i = Some w → P st →
  P (with_immediates (S (immediates st))
       (with_workers (delete i (workers st)) (with_isProcessing false st))).
Hypothesis P_await : ∀ i w call st,
  workers st !! i = Some w → P st →
  P (set_phase i AwaitingSink (with_mutations (mutations st ++ [call]) st)).
Hypothesis P_immediate : ∀ n st, P st → P (with_immediates n st).

Lemma on_message_preserves c env raw st : P st → P (fst (on_message c env raw st)).
Proof.
  intros HP. rewrite on_message_eq. destruct (is_empty (trim raw)); [done|].
  destruct (admission raw) as [[[[m body] rid] token]|] eqn:Hadm; simpl.
  - destruct (strict_equals token AUTH_TOKEN); simpl.
    + destruct (admission_printable _ _ _ _ _ Hadm) as [name Hname].
      by eapply P_processQueue, P_push.
    + by eapply P_view; [|exact HP].
  - by eapply P_view; [|exact HP].
Qed.

Lemma for_messages_preserves c env msgs st :
  P st → P (fst (for_messages c env msgs st)).
Proof.
  revert st. induction msgs as [|raw rest IH]; intros st HP; [done|].
  rewrite for_messages_cons.
  pose proof (on_message_preserves c env raw st HP) as HP'.
  destruct (on_message c env raw st) as [st' [[]|]]; simpl in *; auto.
Qed.

Lemma on_data_preserves c env data st : P st → P (on_data c env data st).
Proof.
  intros HP. unfold on_data. destruct (sockets st !! c); [|done].
  destruct (feed _ data) as [msgs buf].
  apply for_messages_preserves. by eapply P_view; [|exact HP].
Qed.

Lemma complete_preserves i env outcome st : P st → P (complete i env outcome st).
Proof.
  intros HP. unfold complete. destruct (workers st !! i) as [w|] eqn:Hw; [|done].
  pose proof (respond_view (job w) env outcome st) as Hv.
  apply (P_finish i w).
  - injection Hv as _ _ -> _ _ _ _. done.
  - by eapply P_view; [|exact HP].
Qed.

Lemma step_preserves ev st st' : step ev st = Some st' → P st → P st'.
Proof.
  intros Hstep HP. destruct ev as [c|c data env|c|c|i env|i ok env|]; simpl in Hstep.
  - destruct (sockets st !! c); simplify_eq. by eapply P_view; [|exact HP].
  - destruct (sockets st !! c) as [s|]; [|done]. destruct (destroyed s); simplify_eq.
    by apply on_data_preserves.
  - destruct (sockets st !! c) as [s|]; [|done]. destruct (destroyed s); simplify_eq.
    by eapply P_view; [|exact HP].
  - destruct (sockets st !! c) as [s|]; simplify_eq. by eapply P_view; [|exact HP].
  - destruct (workers st !! i) as [[j []]|] eqn:Hw; simplify_eq.
    destruct (executeMethod _ _ _ _); simplify_eq.
    + by apply complete_preserves.
    + by eapply P_await.
  - destruct (workers st !! i) as [[j []]|] eqn:Hw; simplify_eq.
    by apply complete_preserves.
  - destruct (immediates st); simplify_eq. by apply P_processQueue, P_immediate.
Qed.

Lemma reachable_invariant st : reachable st → P st.
Proof. induction 1; eauto using step_preserves. Qed.

End Invariants.

Lemma run_reachable (evs : list event) (st st' : State) :
  reachable st → run evs st = Some st' → reachable st'.
Proof.
  revert st. induction evs as [|ev evs IH]; intros st Hst; simpl.
  - by intros [= <-].
  - destruct (step ev st) as [st1|] eqn:Hstep; [|done].
    eauto using reachable_step.
Qed.

(** ** One job at a time *)

Lemma flag_counts_workers_invariant (st : State) :
  reachable st → flag_counts_workers st.
Proof.
  apply reachable_invariant; unfold flag_counts_workers.
  - by intros st1 st2 [= _ <- <- _ _ _ _].
  - done.
  - done.
  - intros st1 H. unfold processQueue.
    destruct (isProcessing st1) eqn:Hb; simpl; [by rewrite Hb|].
    case_bool_decide; [by rewrite Hb|].
    destruct (processingQueue st1); simpl; [by rewrite Hb|].
    rewrite length_app, H. done.
  - intros i w st1 Hw H. simpl. rewrite length_delete by eauto.
    apply lookup_lt_Some in Hw. destruct (isProcessing st1); lia.
  - intros i w call st1 Hw H. simpl. by rewrite length_alter.
  - done.
Qed.

(** C1. In every state the server can reach, whatever the connections and
    the interleaving of their chunks, at most one [processQueue] activation
    is between its [shift] and the end of its response: at most one job is
    being executed. *)
Theorem at_most_one_job_executing (st : State) :
  reachable st → (length (workers st) ≤ 1)%nat.
Proof.
  intros H%flag_counts_workers_invariant. unfold flag_counts_workers in H.
  destruct (isProcessing st); lia.
Qed.

(** ** First in, first out *)

Lemma fifo_logs_invariant (st : State) : reachable st → fifo_logs st.
Proof.
  apply reachable_invariant; unfold fifo_logs.
  - by intros st1 st2 [= <- _ _ _ _ <- <-].
  - done.
  - intros c env m b r st1 name _ [H1 H2]. simpl. rewrite fmap_app, app_assoc, <- H1. simpl.
    split; [done|]. rewrite length_app. simpl.
    rewrite Nat.add_1_r, seq_S. simpl. by rewrite <- H2.
  - intros st1 [H1 H2]. unfold processQueue.
    destruct (isProcessing st1); simpl; [done|].
    case_bool_decide; [done|].
    destruct (processingQueue st1) as [|j q] eqn:Hq; simpl; [by rewrite Hq|].
    rewrite <- app_assoc. done.
  - done.
  - done.
  - done.
Qed.

(** C2. Jobs begin in the order they were admitted, whatever connection
    they came from: when the job admitted at rank [i] precedes the job
    admitted at rank [k], and the latter has begun (it is at position [q]
    of the log of shifts), the former has begun before it. *)
Theorem global_fifo (st : State) (i k j1 j2 q : nat) :
  reachable st →
  admitted st !! i = Some j1 → admitted st !! k = Some j2 → (i < k)%nat →
  begun st !! q = Some j2 →
  ∃ p, (p < q)%nat ∧ begun st !! p = Some j1.
Proof.
  intros [H1 H2]%fifo_logs_invariant Hi Hk Hik Hq.
  assert (∀ n x, admitted st !! n = Some x → x = n) as Hrank.
  { intros n x. rewrite H2. intros [-> _]%lookup_seq. done. }
  assert (admitted st !! q = Some j2) as Hq'.
  { rewrite H1. by apply lookup_app_l_Some. }
  apply Hrank in Hk as ->. apply Hrank in Hq' as ->.
  exists i. split; [done|].
  rewrite H1 in Hi. rewrite lookup_app_l in Hi; [done|].
  apply lookup_lt_Some in Hq. lia.
Qed.

(** The serial numbers tell the jobs apart. *)
Lemma admitted_NoDup (st : State) : reachable st → NoDup (admitted st).
Proof. intros [_ ->]%fifo_logs_invariant. apply NoDup_seq. Qed.

(** ** Jobs that can be logged *)

Lemma jobs_printable_invariant (st : State) : reachable st → jobs_printable st.
Proof.
  apply reachable_invariant; unfold jobs_printable.
  - intros st1 st2 [= Hq _ Hw _ _ _ _] H j. rewrite <- Hq, <- Hw. apply H.
  - intros start j [Hj|Hj]; simpl in Hj; by apply elem_of_nil in Hj.
  - intros c env m b r st1 name Hname H j [Hj|Hj]; simpl in Hj.
    + apply elem_of_app in Hj as [Hj|Hj%list_elem_of_singleton]; [by eauto|].
      subst j. by exists name.
    + by eauto.
  - intros st1 H j. unfold processQueue.
    destruct (isProcessing st1); simpl; [by apply H|].
    case_bool_decide; [by apply H|].
    destruct (processingQueue st1) as [|j0 q] eqn:Hq; simpl; [by rewrite Hq; apply H|].
    rewrite fmap_app, elem_of_app. simpl. rewrite list_elem_of_singleton.
    intros [Hj|[Hj| ->]]; apply H; rewrite ?Hq; [left; by right|by right|left; by left].
  - intros i w st1 Hw H j [Hj|Hj]; simpl in Hj; [by eauto|].
    apply H. right. rewrite list_fmap_delete in Hj.
    by eapply list_elem_of_delete_inv.
  - intros i w call st1 Hw H j [Hj|Hj]; simpl in Hj; [by eauto|].
    apply H. right.
    rewrite (list_fmap_alter job _ id) in Hj by (by apply Forall_true).
    by rewrite list_alter_id in Hj.
  - intros n st1 H j. apply H.
Qed.

(** ** Frames of one chunk *)

Lemma for_messages_app (c : nat) (env : Env) (pre post : list jsstring) (st : State) :
  for_messages c env (pre ++ post) st =
    match for_messages c env pre st with
    | (st', Normal Next) => for_messages c env post st'
    | other => other
    end.
Proof.
  revert st. induction pre as [|raw pre IH]; intros st; [done|].
  rewrite <- app_comm_cons, !for_messages_cons.
  destruct (on_message c env raw st) as [st' [[]|]]; auto.
Qed.

Lemma push_view (c : nat) (env : Env) (m body rid : value) (st1 st2 : State) :
  jobs_view st1 = jobs_view st2 →
  jobs_view (push c env m body rid st1) = jobs_view (push c env m body rid st2).
Proof. unfold jobs_view, push. simpl. by intros [= -> -> -> -> -> -> ->]. Qed.

Lemma processQueue_view (st1 st2 : State) :
  jobs_view st1 = jobs_view st2 →
  jobs_view (processQueue st1) = jobs_view (processQueue st2).
Proof.
  unfold jobs_view at 1 2. intros [= Hq Hb Hw Hi Hm Ha Hg]. unfold processQueue.
  rewrite Hq, Hb. destruct (isProcessing st2) eqn:Hb2; simpl.
  { unfold jobs_view. congruence. }
  case_bool_decide.
  { unfold jobs_view. congruence. }
  destruct (processingQueue st2) eqn:Hq2; unfold jobs_view; simpl; congruence.
Qed.

(** What an iteration does to the queue, the flag, the activations and the
    logs, and how it ends, depends on nothing but those: not on the sockets,
    not on the counters. *)
Lemma on_message_view (c : nat) (env : Env) (raw : jsstring) (st1 st2 : State) :
  jobs_view st1 = jobs_view st2 →
  jobs_view (fst (on_message c env raw st1)) = jobs_view (fst (on_message c env raw st2))
  ∧ snd (on_message c env raw st1) = snd (on_message c env raw st2).
Proof.
  intros Hv. rewrite !on_message_eq. destruct (is_empty (trim raw)); [done|].
  destruct (admission raw) as [[[[m body] rid] token]|]; [|done].
  destruct (strict_equals token AUTH_TOKEN); [|done].
  split; [|done]. by apply processQueue_view, push_view.
Qed.

Lemma for_messages_view (c : nat) (env : Env) (msgs : list jsstring) (st1 st2 : State) :
  jobs_view st1 = jobs_view st2 →
  jobs_view (fst (for_messages c env msgs st1)) = jobs_view (fst (for_messages c env msgs st2))
  ∧ snd (for_messages c env msgs st1) = snd (for_messages c env msgs st2).
Proof.
  revert st1 st2. induction msgs as [|raw msgs IH]; intros st1 st2 Hv; [done|].
  rewrite !for_messages_cons.
  destruct (on_message_view c env raw st1 st2 Hv) as [Hv' Hr].
  destruct (on_message c env raw st1) as [st1' r1],
           (on_message c env raw st2) as [st2' r2]. simpl in *. subst r2.
  destruct r1 as [[]|]; auto.
Qed.

(** C9. A frame that is empty, or empty once trimmed, is skipped: the
    iteration leaves the whole state as it was (no job, no response, no
    error counted) and the loop goes on, so that the chunk is handled as if
    the frame were not there. *)
Theorem blank_frame_dropped (c : nat) (env : Env) (pre post : list jsstring)
    (raw : jsstring) (st : State) :
  trim raw = [] →
  on_message c env raw st = (st, Normal Next)
  ∧ for_messages c env (pre ++ raw :: post) st = for_messages c env (pre ++ post) st.
Proof.
  intros Hraw.
  assert (∀ st', on_message c env raw st' = (st', Normal Next)) as Hskip.
  { intros st'. by rewrite on_message_eq, Hraw. }
  split; [done|].
  rewrite !for_messages_app.
  destruct (for_messages c env pre st) as [st' [[]|]]; [|done..].
  by rewrite for_messages_cons, Hskip.
Qed.

Lemma admission_unparsable (raw : jsstring) :
  JSON_parse (trim raw) = None →
  admission raw = Throw (Error (js "Failed to unmarshal message: Invalid JSON")).
Proof. intros H. unfold admission, parseMessage. by rewrite H. Qed.

(** C7. A frame that is not blank and that [JSON.parse] rejects gets one
    response, the generic format error with a null request id; the socket is
    not ended; the queue, the flag, the activations and the logs are left as
    they were; the loop goes on; and the other frames of the chunk have the
    effect on the queue they would have had without it. *)
Theorem unparsable_frame_answered (c : nat) (env : Env) (raw : jsstring) (st : State) :
  trim raw ≠ [] → JSON_parse (trim raw) = None →
  let answer :=
    createResponse env (js "ERROR") (VStr (js "Invalid message format")) VUndefined in
  on_message c env raw st = (socket_write c answer (count_error st), Normal Next)
  ∧ jobs_view (socket_write c answer (count_error st)) = jobs_view st
  ∧ (∀ s, sockets st !! c = Some s →
       sockets (socket_write c answer (count_error st)) !! c
       = Some (mkSocket (buffer s) (written s ++ [answer]) (ended s) (destroyed s)))
  ∧ (∀ c', c' ≠ c →
       sockets (socket_write c answer (count_error st)) !! c' = sockets st !! c')
  ∧ (∀ pre post st0,
       jobs_view (fst (for_messages c env (pre ++ raw :: post) st0))
       = jobs_view (fst (for_messages c env (pre ++ post) st0))
       ∧ snd (for_messages c env (pre ++ raw :: post) st0)
         = snd (for_messages c env (pre ++ post) st0)).
Proof.
  intros Hblank Hparse answer.
  assert (∀ st', on_message c env raw st'
                 = (socket_write c answer (count_error st'), Normal Next)) as Hone.
  { intros st'. rewrite on_message_eq, (admission_unparsable _ Hparse).
    by destruct (trim raw). }
  split; [done|]. split; [done|]. split; [|split].
  - intros s Hs. simpl. by rewrite lookup_alter_eq, Hs.
  - intros c' Hc. simpl. by rewrite lookup_alter_ne.
  - intros pre post st0. rewrite !for_messages_app.
    destruct (for_messages c env pre st0) as [st' [[]|]]; [|done..].
    rewrite for_messages_cons, Hone. by apply for_messages_view.
Qed.

(** ** Authentication *)

Lemma admission_read (raw : jsstring) (message header m token rid : value)
    (name : jsstring) :
  parseMessage raw = Normal message →
  get message (js "header") = Normal header →
  get header (js "method") = Normal m →
  ToString m = Normal name →
  get header (js "auth_token") = Normal token →
  get header (js "request_id") = Normal rid →
  ∃ body, admission raw = Normal (m, body, rid, token).
Proof.
  intros Hp Hh Hm Hname Ht Hr. unfold admission.
  rewrite Hp. simpl. rewrite Hh. simpl. rewrite Hm. simpl. rewrite Hname. simpl.
  destruct (get_Normal_any _ _ (js "body") _ Hh) as [body ->].
  rewrite Ht. simpl. rewrite Hr. simpl. by eexists.
Qed.

(** C4. A frame that parses to a message with a header, whose method the
    log line can print and whose [header.auth_token] is not the shared
    secret: the iteration writes one [ERROR] response carrying the request
    id of the message, ends the socket and returns from the callback; the
    queue, the flag, the activations and the logs are as before, so no job
    was created and the queue has the length it had. *)
Theorem auth_rejection (c : nat) (env : Env) (raw : jsstring)
    (message header m token rid : value) (name : jsstring) (st : State) :
  trim raw ≠ [] →
  parseMessage raw = Normal message →
  get message (js "header") = Normal header →
  get header (js "method") = Normal m →
  ToString m = Normal name →
  get header (js "auth_token") = Normal token →
  get header (js "request_id") = Normal rid →
  strict_equals token AUTH_TOKEN = false →
  let answer := createResponse env (js "ERROR") (VStr (js "Unauthorized")) rid in
  let st' := fst (on_message c env raw st) in
  snd (on_message c env raw st) = Normal Return
  ∧ jobs_view st' = jobs_view st
  ∧ length (processingQueue st') = length (processingQueue st)
  ∧ stats st' = stats st
  ∧ (∀ s, sockets st !! c = Some s →
       sockets st' !! c
       = Some (mkSocket (buffer s) (written s ++ [answer]) true (destroyed s)))
  ∧ (∀ c', c' ≠ c → sockets st' !! c' = sockets st !! c').
Proof.
  intros Hblank Hp Hh Hm Hname Ht Hr Hneq answer st'. subst st'.
  destruct (admission_read _ _ _ _ _ _ _ Hp Hh Hm Hname Ht Hr) as (body & Hadm).
  rewrite on_message_eq, Hadm, Hneq.
  destruct (trim raw) as [|x t] eqn:Htrim; [done|]. simpl.
  repeat split.
  - intros s Hs. by rewrite !lookup_alter_eq, Hs.
  - intros c' Hc. by rewrite !lookup_alter_ne.
Qed.

(** C10. When a frame of a chunk is rejected for its token, the callback
    returns: the
    frames after it in the chunk are not looked at.  The loop over the
    frames ends in the state the rejection leaves, whatever follows the
    rejected frame, and so does the callback for a chunk that yields these
    frames. *)
Theorem rejection_discards_rest_of_chunk (c : nat) (env : Env) (raw : jsstring)
    (message header m token rid : value) (name : jsstring)
    (pre post : list jsstring) (st : State) :
  trim raw ≠ [] →
  parseMessage raw = Normal message →
  get message (js "header") = Normal header →
  get header (js "method") = Normal m →
  ToString m = Normal name →
  get header (js "auth_token") = Normal token →
  get header (js "request_id") = Normal rid →
  strict_equals token AUTH_TOKEN = false →
  let answer := createResponse env (js "ERROR") (VStr (js "Unauthorized")) rid in
  for_messages c env (raw :: post) st
  = (socket_end c (socket_write c answer st), Normal Return)
  ∧ for_messages c env (pre ++ raw :: post) st = for_messages c env (pre ++ [raw]) st
  ∧ (∀ s data buf,
       sockets st !! c = Some s → feed (buffer s) data = (pre ++ raw :: post, buf) →
       on_data c env data st
       = fst (for_messages c env (pre ++ [raw]) (set_buffer c buf (count_received st)))).
Proof.
  intros Hblank Hp Hh Hm Hname Ht Hr Hneq answer.
  destruct (admission_read _ _ _ _ _ _ _ Hp Hh Hm Hname Ht Hr) as (body & Hadm).
  assert (∀ st' rest, for_messages c env (raw :: rest) st'
            = (socket_end c (socket_write c answer st'), Normal Return)) as Hrej.
  { intros st' rest. rewrite for_messages_cons, on_message_eq, Hadm, Hneq.
    by destruct (trim raw). }
  assert (∀ st', for_messages c env (pre ++ raw :: post) st'
                 = for_messages c env (pre ++ [raw]) st') as Hcut.
  { intros st'. rewrite !for_messages_app.
    destruct (for_messages c env pre st') as [st1 [[]|]]; [|done..].
    by rewrite !Hrej. }
  split; [done|]. split; [done|].
  intros s data buf Hs Hfeed. unfold on_data. by rewrite Hs, Hfeed, Hcut.
Qed.

(** ** The worker and the handlers *)

Lemma strict_equals_other (m x : jsstring) : m ≠ x → strict_equals (VStr m) x = false.
Proof. intros H. simpl. by rewrite bool_decide_eq_false. Qed.

Lemma executeMethod_unknown (env : Env) (start : Z) (m : jsstring) (body : value) :
  m ∉ RPC_METHODS.all →
  executeMethod env start (VStr m) body
  = Done (Throw (Error (js "Unknown method: " ++ m))).
Proof.
  unfold RPC_METHODS.all. rewrite !not_elem_of_cons. intros (H1 & H2 & H3 & H4 & H5 & _).
  unfold executeMethod. cbn [ToString]. by rewrite !strict_equals_other.
Qed.

(** The same for any method value the log line can print and that is none
    of the registered names: [undefined], a number, an array. *)
Lemma executeMethod_unregistered (env : Env) (start : Z) (m body : value)
    (name : jsstring) :
  ToString m = Normal name →
  Forall (λ r, strict_equals m r = false) RPC_METHODS.all →
  executeMethod env start m body = Done (Throw (Error (js "Unknown method: " ++ name))).
Proof.
  intros Hname Hall. unfold executeMethod. rewrite Hname.
  unfold RPC_METHODS.all in Hall. rewrite !Forall_cons in Hall.
  destruct Hall as (-> & -> & -> & -> & -> & _). done.
Qed.

Lemma respond_stats (j : Job) (env : Env) (outcome : completion value) (st : State) :
  stats (respond j env outcome st)
  = match outcome with
    | Normal _ => stats (count_processed st)
    | Throw _ => stats (count_error st)
    end.
Proof. destruct outcome; simpl; by repeat case_match. Qed.

(** The response of an activation whose socket is still there. *)
Lemma respond_open (j : Job) (env : Env) (outcome : completion value) (s : Socket)
    (st : State) :
  sockets st !! socket j = Some s → destroyed s = false →
  let answer :=
    match outcome with
    | Normal result => createResponse env (js "OK") result (requestId j)
    | Throw e => createResponse env (js "ERROR") (VStr (message e)) (requestId j)
    end in
  sockets (respond j env outcome st)
  = alter (λ s, mkSocket (buffer s) (written s ++ [answer]) (ended s) (destroyed s))
          (socket j) (sockets st).
Proof.
  intros Hs Hd. unfold respond, writable. destruct outcome; simpl; by rewrite Hs, Hd.
Qed.

(** No response when the socket is gone. *)
Lemma respond_closed (j : Job) (env : Env) (outcome : completion value) (s : Socket)
    (st : State) :
  sockets st !! socket j = Some s → destroyed s = true →
  sockets (respond j env outcome st) = sockets st.
Proof.
  intros Hs Hd. unfold respond, writable. destruct outcome; simpl; by rewrite Hs, Hd.
Qed.

Lemma complete_sockets (i : nat) (env : Env) (outcome : completion value) (w : Worker)
    (st : State) :
  workers st !! i = Some w →
  sockets (complete i env outcome st) = sockets (respond (job w) env outcome st).
Proof. intros Hw. unfold complete. by rewrite Hw. Qed.

Lemma complete_stats (i : nat) (env : Env) (outcome : completion value) (w : Worker)
    (st : State) :
  workers st !! i = Some w →
  stats (complete i env outcome st) = stats (respond (job w) env outcome st).
Proof. intros Hw. unfold complete. by rewrite Hw. Qed.

Lemma complete_view (i : nat) (env : Env) (outcome : completion value) (st1 st2 : State) :
  jobs_view st1 = jobs_view st2 →
  jobs_view (complete i env outcome st1) = jobs_view (complete i env outcome st2).
Proof.
  intros Hv. pose proof Hv as [= Hq Hb Hw Hi Hm Ha Hg]. unfold complete. rewrite Hw.
  destruct (workers st2 !! i) as [w|]; [|done].
  pose proof (respond_view (job w) env outcome st1) as [= Hq1 Hb1 Hw1 Hi1 Hm1 Ha1 Hg1].
  pose proof (respond_view (job w) env outcome st2) as [= Hq2 Hb2 Hw2 Hi2 Hm2 Ha2 Hg2].
  unfold jobs_view. simpl. congruence.
Qed.





(** Whatever the body holds besides, once [payload.filename] can be read the
    handler ends with its result object: nothing the audit call does, or
    fails to do, reaches the outcome. *)
Lemma upload_result_total (env : Env) (body f : value) :
  get body (js "filename") = Normal f →
  ∃ size,
    upload_result env body
    = Normal (VObj [(js "message", VStr (js "File uploaded successfully"));
                    (js "filename", f);
                    (js "size", size);
                    (js "storedAt", VStr (iso env))]).
Proof.
  intros Hf. unfold upload_result. rewrite Hf. cbn [mbind completion_bind].
  destruct (get_Normal_any _ _ (js "content") _ Hf) as [content ->].
  cbn [mbind completion_bind].
  destruct (truthy content) eqn:Ht; [|by eexists].
  destruct content; try discriminate; by eexists.
Qed.


(** ** Closed connections *)

Lemma socket_destroy_view (c : nat) (st : State) :
  jobs_view (socket_destroy c st) = jobs_view st ∧ stats (socket_destroy c st) = stats st.
Proof. done. Qed.

Lemma writable_destroyed (j : Job) (st : State) :
  writable j (socket_destroy (socket j) st) = false.
Proof.
  unfold writable. cbn. rewrite lookup_alter_eq.
  by destruct (sockets st !! socket j).
Qed.

Lemma respond_destroyed (j : Job) (env : Env) (outcome : completion value) (st : State) :
  sockets (respond j env outcome (socket_destroy (socket j) st))
  = sockets (socket_destroy (socket j) st).
Proof.
  unfold respond. destruct outcome.
  - by rewrite writable_destroyed.
  - change (writable j (count_error (socket_destroy (socket j) st)))
      with (writable j (socket_destroy (socket j) st)).
    by rewrite writable_destroyed.
Qed.

Lemma complete_destroyed (i : nat) (env : Env) (outcome : completion value) (w : Worker)
    (st : State) :
  workers st !! i = Some w →
  let closed := socket_destroy (socket (job w)) st in
  jobs_view (complete i env outcome closed) = jobs_view (complete i env outcome st)
  ∧ stats (complete i env outcome closed) = stats (complete i env outcome st)
  ∧ sockets (complete i env outcome closed) = sockets closed.
Proof.
  intros Hw closed. subst closed.
  assert (workers (socket_destroy (socket (job w)) st) !! i = Some w) as Hw' by done.
  split; [by apply complete_view|]. split.
  - rewrite (complete_stats _ _ _ _ _ Hw), (complete_stats _ _ _ _ _ Hw'), !respond_stats.
    by destruct outcome.
  - rewrite (complete_sockets _ _ _ _ _ Hw'). apply respond_destroyed.
Qed.

(** C8. Closing a connection touches no job: the queue, the flag, the
    activations and the audit calls issued are as before, and the worker
    takes the next job from the queue as it would have.  When the worker
    finishes a turn for a job (the timer of its activation fires, or its
    audit call settles) and the socket of the job is destroyed, nothing is
    written: all the sockets are as before the turn.  And that turn, taken
    with the socket destroyed, does what it does with the socket open: the
    same audit call, the same counters, the same end of the activation; the
    job, no longer queued nor active, is not taken up again. *)
Theorem closed_connection_suppresses_only_the_write (i : nat) (env : Env)
    (ev : event) (w : Worker) (st st' : State) :
  ev = TimerFired i env ∨ (∃ settled, ev = Settled i settled env) →
  workers st !! i = Some w →
  step ev st = Some st' →
  let c := socket (job w) in
  (∀ c', jobs_view (socket_destroy c' st) = jobs_view st
         ∧ processQueue (socket_destroy c' st) = socket_destroy c' (processQueue st))
  ∧ (∀ s, sockets st !! c = Some s → destroyed s = true → sockets st' = sockets st)
  ∧ ∃ st'',
      step ev (socket_destroy c st) = Some st''
      ∧ jobs_view st'' = jobs_view st'
      ∧ stats st'' = stats st'
      ∧ sockets st'' = sockets (socket_destroy c st).
Proof.
  intros Hev Hw Hstep c. subst c. split.
  { intros c'. split; [done|]. unfold processQueue. cbn.
    destruct (isProcessing st); [done|]. cbn. case_bool_decide; [done|].
    by destruct (processingQueue st). }
  destruct Hev as [->|[settled ->]]; cbn [step] in *.
  - change (workers (socket_destroy (socket (job w)) st)) with (workers st).
    change (stats (socket_destroy (socket (job w)) st)) with (stats st).
    change (mutations (socket_destroy (socket (job w)) st)) with (mutations st).
    rewrite Hw in *. destruct w as [j []]; [|done].
    destruct (executeMethod env (startTime (stats st)) (method j) (payload j))
      as [outcome|call]; simplify_eq.
    + split.
      { intros s Hs Hd. rewrite (complete_sockets _ _ _ _ _ Hw).
        by apply (respond_closed _ _ _ s). }
      eexists. split; [done|].
      apply (complete_destroyed i env outcome _ st Hw).
    + split; [done|]. eexists. split; [done|]. done.
  - change (workers (socket_destroy (socket (job w)) st)) with (workers st).
    rewrite Hw in *. destruct w as [j []]; [done|]. simplify_eq.
    split.
    { intros s Hs Hd. rewrite (complete_sockets _ _ _ _ _ Hw).
      by apply (respond_closed _ _ _ s). }
    eexists. split; [done|].
    apply (complete_destroyed i env _ _ st Hw).
Qed.

Lemma reachable_run_default (evs : list event) (start : Z) :
  reachable (default (initial start) (run evs (initial start))).
Proof.
  destruct (run evs (initial start)) as [st|] eqn:Hrun; simpl.
  - eapply run_reachable; [apply reachable_initial|exact Hrun].
  - apply reachable_initial.
Qed.

(** ** Invariants that look at the sockets and the counters *)

Lemma feed_buffer_partial (buf : jsstring) (data : Buffer) :
  LF ∉ (feed buf data).2.
Proof.
  unfold feed.
  destruct (split_last (buf ++ toString data)) as (ms & b & -> & Hb).
  by rewrite pop_snoc.
Qed.

Section Turns.

Variable P : State → Prop.
Hypothesis P_initial : ∀ start, P (initial start).
Hypothesis P_accept : ∀ c st,
  sockets st !! c = None → P st → P (with_sockets (<[c := fresh_socket]> (sockets st)) st).
Hypothesis P_received : ∀ c buf st,
  LF ∉ buf → P st → P (set_buffer c buf (count_received st)).
Hypothesis P_admit : ∀ c env m b r st name,
  ToString m = Normal name → P st → P (processQueue (push c env m b r st)).
Hypothesis P_reject : ∀ c frame st, P st → P (socket_end c (socket_write c frame st)).
Hypothesis P_format_error : ∀ c frame st, P st → P (socket_write c frame (count_error st)).
Hypothesis P_end : ∀ c st, P st → P (socket_end c st).
Hypothesis P_destroy : ∀ c st, P st → P (socket_destroy c st).
Hypothesis P_complete : ∀ i env outcome w st,
  workers st !! i = Some w → P st → P (complete i env outcome st).
Hypothesis P_await : ∀ i w call st,
  workers st !! i = Some w → P st →
  P (set_phase i AwaitingSink (with_mutations (mutations st ++ [call]) st)).
Hypothesis P_immediate : ∀ n st,
  immediates st = S n → P st → P (processQueue (with_immediates n st)).

Lemma on_message_keeps c env raw st : P st → P (fst (on_message c env raw st)).
Proof.
  intros HP. rewrite on_message_eq. destruct (is_empty (trim raw)); [done|].
  destruct (admission raw) as [[[[m body] rid] token]|] eqn:Hadm; simpl.
  - destruct (strict_equals token AUTH_TOKEN); simpl.
    + destruct (admission_printable _ _ _ _ _ Hadm) as [name Hname].
      by eapply P_admit.
    + by apply P_reject.
  - by apply P_format_error.
Qed.

Lemma for_messages_keeps c env msgs st : P st → P (fst (for_messages c env msgs st)).
Proof.
  revert st. induction msgs as [|raw rest IH]; intros st HP; [done|].
  rewrite for_messages_cons.
  pose proof (on_message_keeps c env raw st HP) as HP'.
  destruct (on_message c env raw st) as [st' [[]|]]; simpl in *; auto.
Qed.

Lemma on_data_keeps c env data st : P st → P (on_data c env data st).
Proof.
  intros HP. unfold on_data. destruct (sockets st !! c) as [s|]; [|done].
  pose proof (feed_buffer_partial (buffer s) data) as Hbuf.
  destruct (feed (buffer s) data) as [msgs buf].
  apply for_messages_keeps. by apply P_received.
Qed.

Lemma step_keeps ev st st' : step ev st = Some st' → P st → P st'.
Proof.
  intros Hstep HP. destruct ev as [c|c data env|c|c|i env|i ok env|]; simpl in Hstep.
  - destruct (sockets st !! c) eqn:Hc; simplify_eq. by apply P_accept.
  - destruct (sockets st !! c) as [s|]; [|done]. destruct (destroyed s); simplify_eq.
    by apply on_data_keeps.
  - destruct (sockets st !! c) as [s|]; [|done]. destruct (destroyed s); simplify_eq.
    by apply P_end.
  - destruct (sockets st !! c) as [s|]; simplify_eq. by apply P_destroy.
  - destruct (workers st !! i) as [[j []]|] eqn:Hw; simplify_eq.
    destruct (executeMethod _ _ _ _); simplify_eq.
    + by eapply P_complete.
    + by eapply P_await.
  - destruct (workers st !! i) as [[j []]|] eqn:Hw; simplify_eq.
    by eapply P_complete.
  - destruct (immediates st) eqn:Hi; simplify_eq. by apply P_immediate.
Qed.

Lemma reachable_keeps st : reachable st → P st.
Proof. induction 1; eauto using step_keeps. Qed.

End Turns.

Lemma complete_fields (i : nat) (env : Env) (outcome : completion value) (w : Worker)
    (st : State) :
  workers st !! i = Some w →
  processingQueue (complete i env outcome st) = processingQueue st
  ∧ isProcessing (complete i env outcome st) = false
  ∧ workers (complete i env outcome st) = delete i (workers st)
  ∧ immediates (complete i env outcome st) = S (immediates st)
  ∧ mutations (complete i env outcome st) = mutations st
  ∧ admitted (complete i env outcome st) = admitted st
  ∧ begun (complete i env outcome st) = begun st.
Proof.
  intros Hw. unfold complete. rewrite Hw.
  pose proof (respond_view (job w) env outcome st) as [= Hq _ Hws Hi Hm Ha Hb].
  cbn. by rewrite Hq, Hws, Hi, Hm, Ha, Hb.
Qed.

Lemma worker_is_awake_invariant (st : State) : reachable st → worker_is_awake st.
Proof.
  apply reachable_keeps; unfold worker_is_awake; try done.
  - intros c env m b r st1 name _ _ _. unfold processQueue, push. cbn.
    destruct (isProcessing st1) eqn:Hb; cbn; [left; by rewrite Hb|].
    case_bool_decide as Hlen; [by rewrite length_app in Hlen; simpl in Hlen; lia|].
    destruct (processingQueue st1 ++ _) eqn:Hq; [|by left].
    by apply app_eq_nil in Hq as [_ ?].
  - intros i env outcome w st1 Hw _ _.
    destruct (complete_fields i env outcome w st1 Hw) as (_ & _ & _ & -> & _).
    right. lia.
  - intros n st1 Hn H. unfold processQueue. cbn.
    destruct (isProcessing st1) eqn:Hb; cbn; [by left|].
    case_bool_decide as Hlen.
    + cbn. intros Hq. by destruct (processingQueue st1).
    + destruct (processingQueue st1) eqn:Hq; [done|]. by left.
Qed.

(** X8. While a job waits in the queue the worker is at work or about to be
    called: an activation is running, or a [setImmediate(processQueue)]
    callback is scheduled.  No job is left behind in a queue that nothing
    will look at again. *)
Theorem queued_job_is_not_forgotten (st : State) :
  reachable st → processingQueue st ≠ [] →
  (∃ w, workers st = [w]) ∨ (workers st = [] ∧ (0 < immediates st)%nat).
Proof.
  intros Hst Hq.
  pose proof (flag_counts_workers_invariant st Hst) as Hflag.
  destruct (worker_is_awake_invariant st Hst Hq) as [Hb|Hi];
    unfold flag_counts_workers in Hflag.
  - rewrite Hb in Hflag. left. destruct (workers st) as [|w [|w' ws]]; try done.
    by exists w.
  - destruct (isProcessing st).
    + left. destruct (workers st) as [|w [|w' ws]]; try done. by exists w.
    + right. split; [|done]. by destruct (workers st).
Qed.

(** X9. A job is shifted from the queue at most once, and a job still in the
    queue has not begun: the serial numbers in the log of shifts and in the
    queue are all different. *)
Theorem job_begins_at_most_once (st : State) :
  reachable st →
  NoDup (begun st)
  ∧ NoDup (jid <$> processingQueue st)
  ∧ (∀ j, j ∈ processingQueue st → jid j ∉ begun st).
Proof.
  intros Hst. destruct (fifo_logs_invariant st Hst) as [H1 H2].
  assert (NoDup (begun st ++ (jid <$> processingQueue st))) as Hnd.
  { rewrite <- H1, H2. apply NoDup_seq. }
  apply NoDup_app in Hnd as (Hb & Hdisj & Hq).
  split; [done|]. split; [done|].
  intros j Hj Hin. apply (Hdisj _ Hin). apply list_elem_of_fmap. by exists j.
Qed.

Lemma processQueue_sockets (st : State) :
  sockets (processQueue st) = sockets st ∧ stats (processQueue st) = stats st.
Proof.
  unfold processQueue. destruct (isProcessing st); cbn; [done|].
  case_bool_decide; [done|]. by destruct (processingQueue st).
Qed.

Lemma buffers_are_partial_alter (f : Socket → Socket) (c : nat) (m : gmap nat Socket) :
  (∀ s, buffer (f s) = buffer s) →
  (∀ c' s, m !! c' = Some s → LF ∉ buffer s) →
  ∀ c' s, alter f c m !! c' = Some s → LF ∉ buffer s.
Proof.
  intros Hf Hm c' s. rewrite lookup_alter. case_decide as Hc.
  - subst c'. destruct (m !! c) as [s0|] eqn:Hs0; simpl; [|done].
    intros [= <-]. rewrite Hf. by eapply Hm.
  - apply Hm.
Qed.

Lemma buffers_are_partial_invariant (st : State) : reachable st → buffers_are_partial st.
Proof.
  apply reachable_keeps; unfold buffers_are_partial.
  - intros start c s. cbn. by rewrite lookup_empty.
  - intros c st1 Hnone H c' s. cbn. rewrite lookup_insert. case_decide.
    + intros [= <-]. apply not_elem_of_nil.
    + apply H.
  - intros c buf st1 Hbuf H c' s. cbn. rewrite lookup_alter. case_decide as Hc.
    + destruct (sockets st1 !! c); simpl; [|done]. by intros [= <-].
    + apply H.
  - intros c env m b r st1 name _ H c' s.
    destruct (processQueue_sockets (push c env m b r st1)) as [-> _]. apply H.
  - intros c frame st1 H. cbn.
    apply buffers_are_partial_alter; [done|].
    by apply buffers_are_partial_alter.
  - intros c frame st1 H. cbn. by apply buffers_are_partial_alter.
  - intros c st1 H. cbn. by apply buffers_are_partial_alter.
  - intros c st1 H. cbn. by apply buffers_are_partial_alter.
  - intros i env outcome w st1 Hw H c' s.
    rewrite (complete_sockets _ _ _ _ _ Hw). unfold respond.
    destruct outcome; cbn; case_match; cbn; try apply H;
      by apply buffers_are_partial_alter.
  - intros i w call st1 Hw H. apply H.
  - intros n st1 Hn H c' s.
    destruct (processQueue_sockets (with_immediates n st1)) as [-> _]. apply H.
Qed.

(** X3. The read buffer of a connection never holds a terminator: whatever has
    arrived, every complete frame has been taken out of it. *)
Theorem buffer_holds_no_terminator (st : State) (c : nat) (s : Socket) :
  reachable st → sockets st !! c = Some s → LF ∉ buffer s.
Proof. intros Hst. by apply buffers_are_partial_invariant. Qed.

Lemma counters_account_invariant (st : State) : reachable st → counters_account st.
Proof.
  apply reachable_keeps; unfold counters_account, finished.
  - intros start. cbn. lia.
  - done.
  - done.
  - intros c env m b r st1 name _ H.
    destruct (processQueue_sockets (push c env m b r st1)) as [_ ->].
    unfold processQueue, push. cbn.
    destruct (isProcessing st1); cbn; [done|].
    case_bool_decide; [done|].
    destruct (processingQueue st1 ++ _); cbn; [done|].
    rewrite !length_app. cbn. lia.
  - done.
  - intros c frame st1 H. cbn. lia.
  - done.
  - done.
  - intros i env outcome w st1 Hw H.
    destruct (complete_fields i env outcome w st1 Hw) as (_ & _ & -> & _ & _ & _ & ->).
    rewrite (complete_stats _ _ _ _ _ Hw), respond_stats.
    rewrite length_delete by eauto. apply lookup_lt_Some in Hw.
    destruct outcome; cbn; lia.
  - intros i w call st1 Hw H. cbn. by rewrite length_alter.
  - intros n st1 Hn H.
    destruct (processQueue_sockets (with_immediates n st1)) as [_ ->].
    unfold processQueue. cbn.
    destruct (isProcessing st1); cbn; [done|].
    case_bool_decide; [done|].
    destruct (processingQueue st1); cbn; [done|].
    rewrite !length_app. cbn. lia.
Qed.

(** X11. The counters of the server: [totalProcessed] counts only jobs whose
    activation is over, and every such job was counted, as processed or as
    an error ([totalErrors] counts the unreadable frames as well). *)
Theorem counters_count_finished_jobs (st : State) :
  reachable st →
  (totalProcessed (stats st) ≤ length (begun st) - length (workers st))%nat
  ∧ (length (begun st) - length (workers st)
     ≤ totalProcessed (stats st) + totalErrors (stats st))%nat.
Proof. intros (_ & H1 & H2)%counters_account_invariant. done. Qed.

(** ** The queue drains *)

Lemma run_app (evs1 evs2 : list event) (st : State) :
  run (evs1 ++ evs2) st = run evs1 st ≫= run evs2.
Proof.
  revert st. induction evs1 as [|ev evs1 IH]; intros st; simpl; [done|].
  destruct (step ev st); simpl; [apply IH|done].
Qed.

Lemma step_timer (i : nat) (env : Env) (j : Job) (st : State) :
  workers st !! i = Some (mkWorker j Sleeping) →
  step (TimerFired i env) st
  = match executeMethod env (startTime (stats st)) (method j) (payload j) with
    | Done outcome => Some (complete i env outcome st)
    | Await call =>
        Some (set_phase i AwaitingSink (with_mutations (mutations st ++ [call]) st))
    end.
Proof. intros Hw. cbn [step]. by rewrite Hw. Qed.

Lemma step_settled (i : nat) (env : Env) (j : Job) (settled : completion value)
    (st : State) :
  workers st !! i = Some (mkWorker j AwaitingSink) →
  step (Settled i settled env) st
  = Some (complete i env (resumeMethod env (payload j) settled) st).
Proof. intros Hw. cbn [step]. by rewrite Hw. Qed.

(** The activation that is running comes to its end in one or two turns:
    its timer fires, and its audit call, if it makes one, settles. *)
Lemma activation_ends (env : Env) (w : Worker) (st : State) :
  workers st = [w] →
  ∃ evs st',
    Forall worker_turn evs ∧ run evs st = Some st'
    ∧ workers st' = [] ∧ processingQueue st' = processingQueue st
    ∧ admitted st' = admitted st.
Proof.
  intros Hws.
  assert (∀ st1 j p outcome, workers st1 = [mkWorker j p] →
            workers (complete 0 env outcome st1) = []
            ∧ processingQueue (complete 0 env outcome st1) = processingQueue st1
            ∧ admitted (complete 0 env outcome st1) = admitted st1) as Hend.
  { intros st1 j p outcome H1.
    assert (workers st1 !! 0%nat = Some (mkWorker j p)) as Hw by by rewrite H1.
    destruct (complete_fields 0 env outcome _ st1 Hw) as (-> & _ & -> & _ & _ & -> & _).
    by rewrite H1. }
  destruct w as [j [|]].
  - destruct (executeMethod env (startTime (stats st)) (method j) (payload j))
      as [outcome|call] eqn:Hex.
    + exists [TimerFired 0 env], (complete 0 env outcome st).
      split; [by repeat constructor|]. split; [|by eapply Hend].
      cbn [run]. rewrite (step_timer 0 env j) by (by rewrite Hws). by rewrite Hex.
    + set (st1 := set_phase 0 AwaitingSink (with_mutations (mutations st ++ [call]) st)).
      assert (workers st1 = [mkWorker j AwaitingSink]) as H1.
      { unfold st1. cbn. by rewrite Hws. }
      exists [TimerFired 0 env; Settled 0 (Normal VUndefined) env],
             (complete 0 env (resumeMethod env (payload j) (Normal VUndefined)) st1).
      split; [by repeat constructor|]. split.
      { cbn [run]. rewrite (step_timer 0 env j) by (by rewrite Hws). rewrite Hex.
        fold st1. by rewrite (step_settled 0 env j) by (by rewrite H1). }
      destruct (Hend st1 j AwaitingSink
                  (resumeMethod env (payload j) (Normal VUndefined)) H1) as (? & ? & ?).
      done.
  - exists [Settled 0 (Normal VUndefined) env],
           (complete 0 env (resumeMethod env (payload j) (Normal VUndefined)) st).
    split; [by repeat constructor|]. split; [|by eapply Hend].
    cbn [run]. by rewrite (step_settled 0 env j) by (by rewrite Hws).
Qed.

Lemma idle_queue_drains (env : Env) (n : nat) (st : State) :
  reachable st → workers st = [] → length (processingQueue st) = n →
  ∃ evs st',
    Forall worker_turn evs ∧ run evs st = Some st'
    ∧ workers st' = [] ∧ processingQueue st' = [] ∧ admitted st' = admitted st.
Proof.
  revert st. induction n as [|n IH]; intros st Hst Hws Hlen.
  - exists [], st. repeat split; [constructor|done|by destruct (processingQueue st)].
  - pose proof (flag_counts_workers_invariant st Hst) as Hflag.
    unfold flag_counts_workers in Hflag. rewrite Hws in Hflag.
    destruct (isProcessing st) eqn:Hb; [done|].
    destruct (processingQueue st) as [|j q] eqn:Hq; [done|].
    destruct (worker_is_awake_invariant st Hst) as [Hb'|Hi];
      [by rewrite Hq|congruence|].
    destruct (immediates st) as [|m] eqn:Him; [lia|].
    set (st1 := processQueue (with_immediates m st)).
    assert (step Immediate st = Some st1) as Hstep by (cbn; by rewrite Him).
    assert (workers st1 = [mkWorker j Sleeping] ∧ processingQueue st1 = q
            ∧ admitted st1 = admitted st) as (Hws1 & Hq1 & Ha1).
    { unfold st1, processQueue. cbn. rewrite Hb, Hq, Hws. done. }
    pose proof (reachable_step _ _ _ Hst Hstep) as Hst1.
    destruct (activation_ends env _ st1 Hws1) as (evs2 & st2 & Hev2 & Hrun2 & Hws2 & Hq2 & Ha2).
    pose proof (run_reachable _ _ _ Hst1 Hrun2) as Hst2.
    destruct (IH st2 Hst2 Hws2) as (evs3 & st3 & Hev3 & Hrun3 & Hws3 & Hq3 & Ha3).
    { rewrite Hq2, Hq1. simpl in Hlen. lia. }
    exists (Immediate :: evs2 ++ evs3), st3. split.
    { constructor; [done|]. by apply Forall_app. }
    split.
    { cbn [run]. rewrite Hstep, run_app, Hrun2. done. }
    repeat split; [done..|]. congruence.
Qed.

(** X10. From any state the server can reach, the worker alone empties the
    queue: there is a sequence of worker turns (timers firing, audit calls
    settling, scheduled callbacks running), with no help from any
    connection, after which no job is queued or running and every job
    admitted has begun. *)
Theorem queue_drains (st : State) (env : Env) :
  reachable st →
  ∃ evs st',
    Forall worker_turn evs ∧ run evs st = Some st'
    ∧ processingQueue st' = [] ∧ workers st' = [] ∧ isProcessing st' = false
    ∧ admitted st' = admitted st ∧ begun st' = admitted st.
Proof.
  intros Hst.
  assert (∃ evs1 st1, Forall worker_turn evs1 ∧ run evs1 st = Some st1
            ∧ workers st1 = [] ∧ admitted st1 = admitted st) as
    (evs1 & st1 & Hev1 & Hrun1 & Hws1 & Ha1).
  { assert (length (workers st) ≤ 1)%nat as Hlen.
    { pose proof (flag_counts_workers_invariant st Hst) as H.
      unfold flag_counts_workers in H. destruct (isProcessing st); lia. }
    destruct (workers st) as [|w [|w' ws]] eqn:Hws; [|..].
    - exists [], st. by repeat split.
    - destruct (activation_ends env w st Hws) as (evs & st' & ? & ? & ? & _ & ?).
      by exists evs, st'.
    - simpl in Hlen. lia. }
  pose proof (run_reachable _ _ _ Hst Hrun1) as Hst1.
  destruct (idle_queue_drains env _ st1 Hst1 Hws1 eq_refl)
    as (evs2 & st2 & Hev2 & Hrun2 & Hws2 & Hq2 & Ha2).
  pose proof (run_reachable _ _ _ Hst1 Hrun2) as Hst2.
  exists (evs1 ++ evs2), st2.
  split; [by apply Forall_app|]. split; [by rewrite run_app, Hrun1|].
  split; [done|]. split; [done|].
  pose proof (flag_counts_workers_invariant st2 Hst2) as Hflag.
  unfold flag_counts_workers in Hflag. rewrite Hws2 in Hflag.
  destruct (fifo_logs_invariant st2 Hst2) as [Hfifo _].
  rewrite Hq2, app_nil_r in Hfifo.
  split; [by destruct (isProcessing st2)|]. split; congruence.
Qed.

(** ** Admission of a frame *)

Lemma admission_authorized (raw : jsstring) (message header m rid body token : value)
    (name : jsstring) :
  parseMessage raw = Normal message →
  get message (js "header") = Normal header →
  get header (js "method") = Normal m →
  ToString m = Normal name →
  get header (js "auth_token") = Normal token →
  get header (js "request_id") = Normal rid →
  get message (js "body") = Normal body →
  admission raw = Normal (m, body, rid, token).
Proof.
  intros Hp Hh Hm Hname Ht Hr Hb. unfold admission.
  rewrite Hp. simpl. rewrite Hh. simpl. rewrite Hm. simpl. rewrite Hname. simpl.
  rewrite Ht. simpl. rewrite Hr. simpl. by rewrite Hb.
Qed.

(** Where the new job stands after [push] and the call of [processQueue]:
    last of all the jobs running or queued; and the worker is at work. *)
Lemma admit_appends (c : nat) (env : Env) (m body rid : value) (st : State) :
  let j := mkJob m body rid c (now env) (length (admitted st)) in
  let st' := processQueue (push c env m body rid st) in
  (job <$> workers st') ++ processingQueue st'
  = (job <$> workers st) ++ processingQueue st ++ [j]
  ∧ admitted st' = admitted st ++ [jid j]
  ∧ isProcessing st' = true.
Proof.
  intros j st'. subst j st'. unfold processQueue, push. cbn.
  destruct (isProcessing st) eqn:Hb; cbn; [by rewrite Hb|].
  case_bool_decide as Hlen; [by rewrite length_app in Hlen; simpl in Hlen; lia|].
  destruct (processingQueue st) as [|j0 q]; cbn.
  - by rewrite fmap_app, <- app_assoc.
  - by rewrite fmap_app, <- app_assoc.
Qed.

(** X6. A frame that parses to a message carrying the shared secret is queued:
    the job holds the method, the body and the request id of the message and
    the connection it came from; it stands last of all the jobs running or
    queued; the worker is at work; nothing is written, no socket and no
    counter changes, and the loop goes on. *)
Theorem authorized_frame_is_queued (c : nat) (env : Env) (raw : jsstring)
    (message header m rid body : value) (name : jsstring) (st : State) :
  trim raw ≠ [] →
  parseMessage raw = Normal message →
  get message (js "header") = Normal header →
  get header (js "method") = Normal m →
  ToString m = Normal name →
  get header (js "auth_token") = Normal (VStr AUTH_TOKEN) →
  get header (js "request_id") = Normal rid →
  get message (js "body") = Normal body →
  let j := mkJob m body rid c (now env) (length (admitted st)) in
  let st' := fst (on_message c env raw st) in
  snd (on_message c env raw st) = Normal Next
  ∧ (job <$> workers st') ++ processingQueue st'
    = (job <$> workers st) ++ processingQueue st ++ [j]
  ∧ admitted st' = admitted st ++ [jid j]
  ∧ isProcessing st' = true
  ∧ sockets st' = sockets st
  ∧ stats st' = stats st.
Proof.
  intros Hblank Hp Hh Hm Hname Ht Hr Hb j st'. subst j st'.
  rewrite on_message_eq, (admission_authorized _ _ _ _ _ _ _ _ Hp Hh Hm Hname Ht Hr Hb).
  destruct (trim raw) eqn:Htrim; [done|]. cbn [is_empty].
  replace (strict_equals (VStr AUTH_TOKEN) AUTH_TOKEN) with true by done.
  cbn [fst snd]. split; [done|].
  destruct (admit_appends c env m body rid st) as (H1 & H2 & H3).
  destruct (processQueue_sockets (push c env m body rid st)) as [H4 H5].
  by rewrite H4, H5.
Qed.

(** ** One call, from the frame to the response *)

(** X7. On a server with nothing queued and nothing running, a frame carrying
    the shared secret is taken up at once, and when the timer of its
    activation fires and the handler runs to its end, the response is
    written on the connection the frame came from, with the request id of
    the frame: [OK] and the result, or [ERROR] and the message of the error.
    No other connection is written to, and the server is idle again. *)
Theorem request_is_answered_on_its_connection (c : nat) (env env' : Env)
    (raw : jsstring) (parsed header m rid body : value) (name : jsstring)
    (outcome : completion value) (s : Socket) (st : State) :
  trim raw ≠ [] →
  parseMessage raw = Normal parsed →
  get parsed (js "header") = Normal header →
  get header (js "method") = Normal m →
  ToString m = Normal name →
  get header (js "auth_token") = Normal (VStr AUTH_TOKEN) →
  get header (js "request_id") = Normal rid →
  get parsed (js "body") = Normal body →
  workers st = [] → processingQueue st = [] → isProcessing st = false →
  sockets st !! c = Some s → destroyed s = false →
  executeMethod env' (startTime (stats st)) m body = Done outcome →
  let answer :=
    match outcome with
    | Normal result => createResponse env' (js "OK") result rid
    | Throw e => createResponse env' (js "ERROR") (VStr (message e)) rid
    end in
  ∃ st',
    step (TimerFired 0 env') (fst (on_message c env raw st)) = Some st'
    ∧ sockets st' !! c
      = Some (mkSocket (buffer s) (written s ++ [answer]) (ended s) (destroyed s))
    ∧ (∀ c', c' ≠ c → sockets st' !! c' = sockets st !! c')
    ∧ workers st' = [] ∧ processingQueue st' = [] ∧ isProcessing st' = false.
Proof.
  intros Hblank Hp Hh Hm Hname Ht Hr Hb Hws Hq Hflag Hs Hd Hex answer.
  rewrite on_message_eq, (admission_authorized _ _ _ _ _ _ _ _ Hp Hh Hm Hname Ht Hr Hb).
  destruct (trim raw) as [|x t] eqn:Htrim; [done|]. cbn [is_empty].
  replace (strict_equals (VStr AUTH_TOKEN) AUTH_TOKEN) with true by done.
  cbn [fst].
  set (j := mkJob m body rid c (now env) (length (admitted st))).
  set (st1 := processQueue (push c env m body rid st)).
  assert (workers st1 = [mkWorker j Sleeping] ∧ processingQueue st1 = []
          ∧ sockets st1 = sockets st ∧ stats st1 = stats st) as (Hws1 & Hq1 & Hs1 & Hst1).
  { unfold st1, processQueue, push. cbn. rewrite Hflag, Hq, Hws. done. }
  assert (workers st1 !! 0%nat = Some (mkWorker j Sleeping)) as Hw by by rewrite Hws1.
  exists (complete 0 env' outcome st1).
  split.
  { rewrite (step_timer 0 env' j st1 Hw), Hst1. subst j. cbn [method payload]. by rewrite Hex. }
  destruct (complete_fields 0 env' outcome _ st1 Hw) as (Hq2 & Hb2 & Hws2 & _).
  rewrite (complete_sockets _ _ _ _ _ Hw). cbn [job].
  assert (sockets st1 !! socket j = Some s) as Hs' by by rewrite Hs1.
  rewrite (respond_open j env' outcome s st1 Hs' Hd), Hs1. subst j. cbn [socket requestId].
  split; [rewrite lookup_alter_eq, Hs; by destruct outcome|].
  split; [intros c' Hc; by rewrite lookup_alter_ne|].
  rewrite Hws2, Hws1, Hq2, Hq1. done.
Qed.

(** ** What a chunk can touch *)

Lemma on_message_sockets (c : nat) (env : Env) (raw : jsstring) (st : State) :
  let st' := fst (on_message c env raw st) in
  (∀ c', c' ≠ c → sockets st' !! c' = sockets st !! c')
  ∧ (∀ s, sockets st !! c = Some s →
       ∃ s', sockets st' !! c = Some s'
             ∧ buffer s' = buffer s ∧ destroyed s' = destroyed s
             ∧ written s `prefix_of` written s'
             ∧ (ended s = true → ended s' = true))
  ∧ (sockets st !! c = None → sockets st' !! c = None).
Proof.
  intros st'. subst st'. rewrite on_message_eq.
  destruct (is_empty (trim raw)).
  { cbn. split; [done|]. split; [|done]. intros s Hs. by exists s. }
  destruct (admission raw) as [[[[m body] rid] token]|]; cbn [fst].
  - destruct (strict_equals token AUTH_TOKEN); cbn [fst].
    + destruct (processQueue_sockets (push c env m body rid st)) as [-> _]. cbn.
      split; [done|]. split; [|done]. intros s Hs. by exists s.
    + cbn. split; [intros c' Hc; by rewrite !lookup_alter_ne|].
      split.
      * intros s Hs. rewrite !lookup_alter_eq, Hs. cbn. eexists. split; [done|].
        cbn. split; [done|]. split; [done|]. split; [by apply prefix_app_r|]. done.
      * intros Hs. by rewrite !lookup_alter_eq, Hs.
  - cbn. split; [intros c' Hc; by rewrite !lookup_alter_ne|].
    split.
    + intros s Hs. rewrite !lookup_alter_eq, Hs. cbn. eexists. split; [done|].
      cbn. split; [done|]. split; [done|]. split; [by apply prefix_app_r|]. done.
    + intros Hs. by rewrite !lookup_alter_eq, Hs.
Qed.

Lemma for_messages_sockets (c : nat) (env : Env) (msgs : list jsstring) (st : State) :
  let st' := fst (for_messages c env msgs st) in
  (∀ c', c' ≠ c → sockets st' !! c' = sockets st !! c')
  ∧ (∀ s, sockets st !! c = Some s →
       ∃ s', sockets st' !! c = Some s'
             ∧ buffer s' = buffer s ∧ destroyed s' = destroyed s
             ∧ written s `prefix_of` written s'
             ∧ (ended s = true → ended s' = true)).
Proof.
  revert st. induction msgs as [|raw rest IH]; intros st; cbn zeta.
  { cbn. split; [done|]. intros s Hs. by exists s. }
  rewrite for_messages_cons.
  destruct (on_message_sockets c env raw st) as (Hother & Hown & _).
  destruct (on_message c env raw st) as [st1 [[]|]]; cbn [fst] in *; [|done..].
  destruct (IH st1) as (Hother' & Hown'). split.
  - intros c' Hc. by rewrite Hother', Hother.
  - intros s Hs. destruct (Hown s Hs) as (s1 & Hs1 & Hb1 & Hd1 & Hw1 & He1).
    destruct (Hown' s1 Hs1) as (s2 & Hs2 & Hb2 & Hd2 & Hw2 & He2).
    exists s2. split; [done|]. split; [congruence|]. split; [congruence|].
    split; [by etrans|]. auto.
Qed.

(** X4. A chunk received on a connection changes the record of no other
    connection: their buffers, what was written to them and their state are
    as before.  On its own connection it replaces the buffer, may write
    responses after those already written and may end the socket; it never
    takes back a response, never reopens an ended socket and never changes
    [destroyed]. *)
Theorem chunk_touches_only_its_connection (c : nat) (env : Env) (data : Buffer)
    (st : State) :
  let st' := on_data c env data st in
  (∀ c', c' ≠ c → sockets st' !! c' = sockets st !! c')
  ∧ (∀ s, sockets st !! c = Some s →
       ∃ s', sockets st' !! c = Some s'
             ∧ buffer s' = (feed (buffer s) data).2
             ∧ destroyed s' = destroyed s
             ∧ written s `prefix_of` written s'
             ∧ (ended s = true → ended s' = true)).
Proof.
  intros st'. subst st'. unfold on_data.
  destruct (sockets st !! c) as [s|] eqn:Hs; [|done].
  destruct (feed (buffer s) data) as [msgs buf] eqn:Hfeed.
  destruct (for_messages_sockets c env msgs (set_buffer c buf (count_received st)))
    as (Hother & Hown).
  split.
  - intros c' Hc. rewrite (Hother c' Hc). cbn. by rewrite lookup_alter_ne.
  - intros s0 [= <-].
    destruct (Hown (mkSocket buf (written s) (ended s) (destroyed s)))
      as (s' & Hs' & Hb & Hd & Hw & He).
    { cbn. by rewrite lookup_alter_eq, Hs. }
    cbn [buffer written ended destroyed] in *. exists s'. rewrite Hfeed. by repeat split.
Qed.

(** ** What a feed keeps *)

Lemma split_joins (s : jsstring) (ms : list jsstring) (b : jsstring) :
  split s = ms ++ [b] →
  concat (framed <$> ms) ++ b = s ∧ Forall (λ m, LF ∉ m) ms.
Proof.
  revert ms b. induction s as [|x s IH]; intros ms b; simpl.
  - destruct ms as [|m [|m' ms]]; simpl; intros [=]; by subst.
  - destruct (split_last s) as (ms' & b' & Hs & _).
    destruct (IH _ _ Hs) as [Hjoin Hfree]. rewrite Hs.
    destruct (N.eqb_spec x LF) as [->|Hx].
    + change ([] :: ms' ++ [b']) with (([] :: ms') ++ [b']).
      intros [<- <-]%app_inj_tail. csimpl. split; [by rewrite Hjoin|].
      constructor; [apply not_elem_of_nil|done].
    + destruct ms' as [|m' ms']; simpl.
      * destruct ms as [|m [|m'' ms]]; simpl; intros [=]; by subst.
      * change ((x :: m') :: ms' ++ [b']) with (((x :: m') :: ms') ++ [b']).
        intros [<- <-]%app_inj_tail. csimpl in *. split; [by rewrite <- Hjoin|].
        apply Forall_cons in Hfree as [Hm' Hfree].
        constructor; [|done]. by apply not_elem_of_cons.
Qed.

(** X1. A feed loses nothing and invents nothing: the messages it hands over,
    each followed by a terminator, and then the new buffer, are exactly the
    old buffer followed by the decoded chunk; no message and no buffer holds
    a terminator. *)
Theorem feed_keeps_the_text (buf : jsstring) (data : Buffer) :
  concat (framed <$> (feed buf data).1) ++ (feed buf data).2 = buf ++ toString data
  ∧ Forall (λ m, LF ∉ m) (feed buf data).1
  ∧ LF ∉ (feed buf data).2.
Proof.
  unfold feed.
  destruct (split_last (buf ++ toString data)) as (ms & b & Hs & Hb).
  rewrite Hs, pop_snoc. cbn. destruct (split_joins _ _ _ Hs). done.
Qed.

(** ** The handlers *)

(** X13. Of the registered methods other than [UPLOAD_FILE], none reaches the
    audit store, [LIST_FILES] and [PING] succeed whatever the body, and
    [DELETE_FILE] and [CHECK_BALANCE] fail exactly when the request has no
    body, or a null one: they read a field of it. *)
Theorem plain_handlers_fail_only_without_body (env : Env) (start : Z) (name : jsstring)
    (body : value) :
  name ∈ [RPC_METHODS.LIST_FILES; RPC_METHODS.DELETE_FILE;
          RPC_METHODS.CHECK_BALANCE; RPC_METHODS.PING] →
  ∃ outcome,
    executeMethod env start (VStr name) body = Done outcome
    ∧ ((∃ e, outcome = Throw e)
       ↔ (body = VUndefined ∨ body = VNull)
         ∧ (name = RPC_METHODS.DELETE_FILE ∨ name = RPC_METHODS.CHECK_BALANCE)).
Proof.
  intros Hin.
  repeat (apply elem_of_cons in Hin as [->|Hin]); [..|by apply elem_of_nil in Hin];
    destruct body; (eexists; split; [reflexivity|]); cbn;
    (split; [intros [e [=]]; auto | intros [[[=]|[=]] [[=]|[=]]]; eauto]).
Qed.

(** X14. An upload whose [content] is truthy but not a string (a number, an
    array, an object): building the arguments of the audit call throws
    inside the [try], so no audit call is made, and the upload is
    acknowledged all the same. *)
Theorem upload_without_string_content_skips_audit (env : Env) (start : Z)
    (body content : value) (name : jsstring) :
  get body (js "filename") = Normal (VStr name) →
  get body (js "content") = Normal content →
  truthy content = true → (∀ s, content ≠ VStr s) →
  ∃ size,
    executeMethod env start (VStr RPC_METHODS.UPLOAD_FILE) body
    = Done (Normal (VObj [(js "message", VStr (js "File uploaded successfully"));
                         (js "filename", VStr name);
                         (js "size", size);
                         (js "storedAt", VStr (iso env))])).
Proof.
  intros Hf Hc Ht Hns.
  destruct (upload_result_total env body _ Hf) as [size Hres].
  exists size. unfold executeMethod. cbn [ToString].
  replace (strict_equals (VStr RPC_METHODS.UPLOAD_FILE) RPC_METHODS.UPLOAD_FILE)
    with true by done.
  rewrite Hf. cbn [mbind completion_bind ToString].
  assert (∃ e, upload_mutation body = Throw e) as [e ->]; [|by rewrite Hres].
  unfold upload_mutation. rewrite Hf. cbn [mbind completion_bind].
  rewrite Hc. cbn [mbind completion_bind]. rewrite Ht.
  destruct content; try discriminate; try (by eexists).
  by destruct (Hns s).
Qed.

(** ** White space around a frame *)

Lemma trim_start_white (pad s : jsstring) :
  Forall (λ x, is_white x = true) pad → trim_start (pad ++ s) = trim_start s.
Proof. induction 1 as [|x pad Hx _ IH]; simpl; [done|]. by rewrite Hx. Qed.

Lemma trim_start_all_white (s : jsstring) :
  trim_start s = [] → Forall (λ x, is_white x = true) s.
Proof.
  induction s as [|x s IH]; simpl; [done|].
  destruct (is_white x) eqn:Hx; [|done]. intros H. constructor; auto.
Qed.

Lemma trim_start_app (s t : jsstring) :
  trim_start s ≠ [] → trim_start (s ++ t) = trim_start s ++ t.
Proof.
  induction s as [|x s IH]; simpl; [done|].
  by destruct (is_white x).
Qed.

Lemma trim_end_white (s pad : jsstring) :
  Forall (λ x, is_white x = true) pad → trim_end (s ++ pad) = trim_end s.
Proof.
  intros Hpad. unfold trim_end. rewrite reverse_app.
  rewrite trim_start_white; [done|]. by apply Forall_reverse.
Qed.

Lemma trim_padded (pad s pad' : jsstring) :
  Forall (λ x, is_white x = true) pad → Forall (λ x, is_white x = true) pad' →
  trim (pad ++ s ++ pad') = trim s.
Proof.
  intros Hpad Hpad'. unfold trim. rewrite (trim_start_white _ _ Hpad).
  destruct (trim_start s) as [|x t] eqn:Hs.
  - rewrite trim_start_white; [|by apply trim_start_all_white].
    rewrite <- (app_nil_r pad'), (trim_start_white _ _ Hpad'). done.
  - rewrite trim_start_app by (by rewrite Hs). rewrite Hs.
    by apply trim_end_white.
Qed.

(** X5. White space and line ends around a frame make no difference: a frame
    sent with a carriage return before the terminator, or indented, is
    handled as the bare frame is. *)
Theorem padding_is_ignored (c : nat) (env : Env) (pad raw pad' : jsstring) (st : State) :
  Forall (λ x, is_white x = true) pad → Forall (λ x, is_white x = true) pad' →
  on_message c env (pad ++ raw ++ pad') st = on_message c env raw st.
Proof.
  intros Hpad Hpad'. rewrite !on_message_eq.
  unfold admission, parseMessage. by rewrite (trim_padded _ _ _ Hpad Hpad').
Qed.

(** ** Marshalling meets unmarshalling *)

(** A chunk that decodes to one marshalled message and its terminator,
    arriving on a connection with nothing buffered, is one frame; when the
    message parses back to an object with the four header fields and the
    secret, the frame is queued. *)
Lemma packet_is_queued (c : nat) (env : Env) (data : Buffer) (s : Socket)
    (pdu header m rid body : value) (name : jsstring) (st : State) :
  sockets st !! c = Some s → buffer s = [] →
  toString data = JSON_stringify pdu ++ [LF] →
  LF ∉ JSON_stringify pdu →
  trim (JSON_stringify pdu) ≠ [] →
  JSON_parse (trim (JSON_stringify pdu)) = Some pdu →
  get pdu (js "header") = Normal header →
  get header (js "method") = Normal m →
  ToString m = Normal name →
  get header (js "auth_token") = Normal (VStr AUTH_TOKEN) →
  get header (js "request_id") = Normal rid →
  get pdu (js "body") = Normal body →
  let j := mkJob m body rid c (now env) (length (admitted st)) in
  let st' := on_data c env data st in
  (job <$> workers st') ++ processingQueue st'
  = (job <$> workers st) ++ processingQueue st ++ [j]
  ∧ admitted st' = admitted st ++ [jid j]
  ∧ sockets st' !! c = Some s.
Proof.
  intros Hs Hbuf Hdata HLF Hblank Hparse Hh Hm Hname Ht Hr Hb j st'. subst j st'.
  unfold on_data. rewrite Hs.
  rewrite (feed_split (buffer s) data [JSON_stringify pdu] []);
    [|by rewrite Hbuf, Hdata; simpl; rewrite split_app_LF].
  rewrite for_messages_cons, on_message_eq.
  assert (parseMessage (JSON_stringify pdu) = Normal pdu) as Hp
    by (unfold parseMessage; by rewrite Hparse).
  rewrite (admission_authorized _ _ _ _ _ _ _ _ Hp Hh Hm Hname Ht Hr Hb).
  destruct (trim (JSON_stringify pdu)) eqn:Htrim; [done|]. cbn [is_empty].
  replace (strict_equals (VStr AUTH_TOKEN) AUTH_TOKEN) with true by done.
  cbn [for_messages mret stmt_ret fst].
  set (st2 := set_buffer c [] (count_received st)).
  destruct (admit_appends c env m body rid st2) as (H1 & H2 & H3).
  destruct (processQueue_sockets (push c env m body rid st2)) as [H4 _].
  split; [exact H1|]. split; [exact H2|].
  rewrite H4. subst st2. cbn. rewrite lookup_alter_eq, Hs. cbn.
  destruct s as [b w e d]; cbn in *. by subst b.
Qed.

(** X15. What [createMessage] marshals with the shared secret, the server
    unmarshals and queues: received in one chunk on a connection with
    nothing buffered, the message becomes one job with the method, the
    payload and the fresh request id it was made with, and nothing is
    written back yet.  Premises on the built-ins: the text of the message
    has no raw line feed, is not blank and parses back to the message; the
    method can be printed. *)
Theorem created_message_is_queued (cenv : ClientEnv) (method payload : value)
    (name : jsstring) (c : nat) (env : Env) (data : Buffer) (s : Socket) (st : State) :
  let pdu := pdu_of cenv method payload (VStr AUTH_TOKEN) in
  sockets st !! c = Some s → buffer s = [] →
  toString data = createMessage cenv method payload (VStr AUTH_TOKEN) →
  LF ∉ JSON_stringify pdu →
  trim (JSON_stringify pdu) ≠ [] →
  JSON_parse (trim (JSON_stringify pdu)) = Some pdu →
  ToString method = Normal name →
  let j := mkJob method payload (VStr (fresh_request_id cenv)) c (now env)
             (length (admitted st)) in
  let st' := on_data c env data st in
  (job <$> workers st') ++ processingQueue st'
  = (job <$> workers st) ++ processingQueue st ++ [j]
  ∧ admitted st' = admitted st ++ [jid j]
  ∧ sockets st' !! c = Some s.
Proof.
  intros pdu Hs Hbuf Hdata HLF Hblank Hparse Hname.
  by eapply (packet_is_queued c env data s pdu).
Qed.

(** X16. The packet the stub's [POST] marshals is accepted by the server in the
    same way: the stub's copy of the secret is the server's, and the order
    of the header fields makes no difference. *)
Theorem stub_packet_is_queued (cenv : ClientEnv) (method payload : value)
    (name : jsstring) (c : nat) (env : Env) (data : Buffer) (s : Socket) (st : State) :
  let pdu := stub_pdu cenv method payload in
  sockets st !! c = Some s → buffer s = [] →
  toString data = stub_packet cenv method payload →
  LF ∉ JSON_stringify pdu →
  trim (JSON_stringify pdu) ≠ [] →
  JSON_parse (trim (JSON_stringify pdu)) = Some pdu →
  ToString method = Normal name →
  let j := mkJob method payload (VStr (fresh_request_id cenv)) c (now env)
             (length (admitted st)) in
  let st' := on_data c env data st in
  (job <$> workers st') ++ processingQueue st'
  = (job <$> workers st) ++ processingQueue st ++ [j]
  ∧ admitted st' = admitted st ++ [jid j]
  ∧ sockets st' !! c = Some s.
Proof.
  intros pdu Hs Hbuf Hdata HLF Hblank Hparse Hname.
  by eapply (packet_is_queued c env data s pdu).
Qed.

(** ** The stub's call *)

Lemma stub_run_app (packet : jsstring) (evs1 evs2 : list stub_event) (cl : Call) :
  stub_run packet (evs1 ++ evs2) cl = stub_run packet evs1 cl ≫= stub_run packet evs2.
Proof.
  revert cl. induction evs1 as [|ev evs1 IH]; intros cl; simpl; [done|].
  destruct (stub_step packet ev cl); simpl; [apply IH|done].
Qed.

Lemma includes_LF_false (s : jsstring) : LF ∉ s → includes_LF s = false.
Proof. intros Hs. unfold includes_LF. by case_bool_decide. Qed.

Lemma includes_LF_true (s : jsstring) : LF ∈ s → includes_LF s = true.
Proof. intros Hs. unfold includes_LF. by case_bool_decide. Qed.

Lemma stub_step_consistent (packet : jsstring) (ev : stub_event) (cl cl' : Call) :
  call_consistent cl → stub_step packet ev cl = Some cl' → call_consistent cl'.
Proof.
  destruct cl as [buf t l p out]. unfold call_consistent, stub_step. cbn.
  destruct ev as [|data|msg| |], l; cbn; intros H; try done.
  - intros [= <-]. cbn. destruct H as (-> & -> & ->). repeat split. apply not_elem_of_nil.
  - intros [= <-]. destruct H as (-> & -> & Hbuf).
    unfold stub_on_data. cbn.
    destruct (includes_LF (buf ++ toString data)) eqn:HLF.
    + by destruct (JSON_parse _).
    + cbn. repeat split. unfold includes_LF in HLF. by case_bool_decide.
  - intros [= <-]. by destruct H as (-> & -> & _).
  - intros [= <-]. by destruct H as (-> & -> & _).
  - intros [= <-]. destruct H as (-> & -> & Hbuf). cbn.
    rewrite (includes_LF_false _ Hbuf).
    destruct buf; cbn; [done|]. split; [done|]. done.
  - intros [= <-]. destruct H as (Hp & ->). cbn.
    destruct (negb (is_empty buf) && negb (includes_LF buf)); cbn.
    + unfold settle. cbn. destruct p; cbn; [|done]. split; done.
    + split; [done|]. done.
  - destruct t; [|done]. intros [= <-]. by destruct H as (-> & _ & _).
  - destruct t; [|done]. intros [= <-]. by destruct H as (-> & _ & _).
  - destruct t; [|done]. by destruct H.
  - destruct t; [|done]. by destruct H.
Qed.

Lemma stub_run_consistent (packet : jsstring) (evs : list stub_event) (cl cl' : Call) :
  call_consistent cl → stub_run packet evs cl = Some cl' → call_consistent cl'.
Proof.
  revert cl. induction evs as [|ev evs IH]; intros cl Hcl; simpl.
  - by intros [= <-].
  - destruct (stub_step packet ev cl) as [cl1|] eqn:Hstep; [|done].
    apply IH. by eapply stub_step_consistent.
Qed.

Lemma call_started_consistent : call_consistent call_started.
Proof. by repeat split. Qed.

(** X19. A call of [sendToRpcServer] whose promise is still pending is in one of
    two situations.  Either its timeout is still armed, and when it fires
    the promise is rejected with "RPC server timeout".  Or the socket has
    closed without a single character of a response having arrived: the
    timeout has been cleared, nothing has settled the promise, and (next
    theorem) nothing ever will. *)
Theorem pending_call_has_timeout_or_closed_silently (packet : jsstring)
    (evs : list stub_event) (cl : Call) :
  stub_run packet evs call_started = Some cl →
  promise cl = None →
  (armed cl = true
   ∧ ∃ cl', stub_step packet STimeout cl = Some cl'
            ∧ promise cl' = Some (Throw (Error (js "RPC server timeout")))
            ∧ armed cl' = false)
  ∨ (wire_state cl = Closed ∧ armed cl = false ∧ responseBuffer cl = []).
Proof.
  intros Hrun Hp.
  pose proof (stub_run_consistent _ _ _ _ call_started_consistent Hrun) as H.
  destruct cl as [buf t l p out]. unfold call_consistent in H. cbn in *. subst p.
  destruct l.
  - left. destruct H as (_ & -> & _). split; [done|]. eexists. by cbn.
  - left. destruct H as (_ & -> & _). split; [done|]. eexists. by cbn.
  - by destruct H.
  - right. destruct H as [-> H]. by rewrite H.
Qed.

(** X20. When the server closes the connection before sending anything, the
    ['close'] callback clears the timeout and rejects nothing (the buffer is
    empty): the promise is left pending and no event of the call can occur
    any more, so the caller waits for ever. *)
Theorem silent_close_leaves_call_pending (packet : jsstring) (cl : Call) :
  wire_state cl = Open → responseBuffer cl = [] → promise cl = None →
  ∃ cl', stub_step packet SClose cl = Some cl'
         ∧ promise cl' = None
         ∧ ∀ ev, stub_step packet ev cl' = None.
Proof.
  destruct cl as [buf t l p out]. cbn. intros -> -> ->.
  eexists. split; [done|]. split; [done|]. by intros [].
Qed.

Lemma snoc_inv_prefix {A} (a b t : list A) (x : A) :
  a ++ b = t ++ [x] → b ≠ [] → ∃ b', b = b' ++ [x] ∧ t = a ++ b'.
Proof.
  intros H Hb. destruct (exists_last Hb) as (b' & y & ->).
  rewrite app_assoc in H. apply app_inj_tail in H as [<- <-]. by exists b'.
Qed.

(** While no terminator has arrived the stub only buffers. *)
Lemma stub_keeps_collecting (packet : jsstring) (chunks : list Buffer) (cl : Call) :
  wire_state cl = Open →
  LF ∉ responseBuffer cl ++ concat (toString <$> chunks) →
  stub_run packet (SData <$> chunks) cl
  = Some (mkCall (responseBuffer cl ++ concat (toString <$> chunks)) (armed cl) Open
            (promise cl) (sent cl)).
Proof.
  revert cl. induction chunks as [|data chunks IH]; intros [buf t l p out]; cbn;
    intros -> HLF.
  - by rewrite app_nil_r.
  - rewrite app_assoc in HLF. unfold stub_on_data. cbn.
    rewrite includes_LF_false by (intros H; apply HLF, elem_of_app; by left).
    rewrite IH; cbn; [|done|done]. by rewrite app_assoc.
Qed.

(** A call that has buffered an unterminated beginning of a response and
    then receives the chunks [init] and [last], which complete the text and
    its terminator: the promise is pending until [last] arrives, then
    settled with what the text, trimmed, parses to. *)
Lemma stub_collects (packet : jsstring) (init : list Buffer) (last : Buffer)
    (text : jsstring) (cl : Call) :
  wire_state cl = Open → promise cl = None →
  toString last ≠ [] →
  responseBuffer cl ++ concat (toString <$> init) ++ toString last = text ++ [LF] →
  LF ∉ text →
  (∃ cl1, stub_run packet (SData <$> init) cl = Some cl1 ∧ promise cl1 = None)
  ∧ ∃ cl', stub_run packet (SData <$> init ++ [last]) cl = Some cl'
      ∧ promise cl' = Some (match JSON_parse (trim text) with
                            | Some response => Normal response
                            | None => Throw (Error (js "Failed to parse RPC response"))
                            end)
      ∧ armed cl' = false
      ∧ wire_state cl' = Destroyed.
Proof.
  destruct cl as [buf t l p out]. cbn. intros -> -> Hlast Hcat Htext.
  rewrite app_assoc in Hcat.
  destruct (snoc_inv_prefix _ _ _ _ Hcat Hlast) as (b' & Hb' & ->).
  assert (LF ∉ buf ++ concat (toString <$> init)) as Hinit.
  { intros H. apply Htext, elem_of_app. by left. }
  pose proof (stub_keeps_collecting packet init (mkCall buf t Open None out) eq_refl Hinit)
    as Hrun. cbn in Hrun.
  split; [eexists; by split|].
  rewrite fmap_app, stub_run_app, Hrun. cbn -[trim]. unfold stub_on_data. cbn -[trim].
  rewrite Hcat, includes_LF_true by (apply elem_of_app; right; by left).
  set (text := (buf ++ concat (toString <$> init)) ++ b').
  assert (trim (text ++ [LF]) = trim text) as ->
    by (apply (trim_padded [] text [LF]); by repeat constructor).
  eexists. split; [done|]. by destruct (JSON_parse (trim text)).
Qed.

(** X17. A response that arrives in pieces is put together: however the text and
    its terminator are cut into chunks (each decoding to its part of the
    text), the promise stays pending until the last chunk and is then
    resolved with what [JSON.parse] makes of the trimmed text, or rejected
    with "Failed to parse RPC response" when it makes nothing of it; the
    timeout is cleared and the socket destroyed. *)
Theorem stub_collects_chunked_response (packet : jsstring) (init : list Buffer)
    (last : Buffer) (text : jsstring) (cl : Call) :
  wire_state cl = Open → promise cl = None → responseBuffer cl = [] →
  toString last ≠ [] →
  concat (toString <$> init) ++ toString last = text ++ [LF] →
  LF ∉ text →
  (∃ cl1, stub_run packet (SData <$> init) cl = Some cl1 ∧ promise cl1 = None)
  ∧ ∃ cl', stub_run packet (SData <$> init ++ [last]) cl = Some cl'
      ∧ promise cl' = Some (match JSON_parse (trim text) with
                            | Some response => Normal response
                            | None => Throw (Error (js "Failed to parse RPC response"))
                            end)
      ∧ armed cl' = false
      ∧ wire_state cl' = Destroyed.
Proof.
  intros Hw Hp Hbuf Hlast Hcat Htext.
  apply stub_collects; [done|done|done| |done]. by rewrite Hbuf.
Qed.

(** X18. The stub unmarshals what the server marshals: when the chunks decode to
    a response made by [createResponse], the promise is resolved with the
    object of that response, with its status, result, request id ([null]
    for a missing one) and timestamp.  Premises on the built-ins: the text
    of the response has no raw line feed and parses back to the object. *)
Theorem stub_resolves_with_server_response (packet : jsstring) (init : list Buffer)
    (last : Buffer) (env : Env) (status : jsstring) (result requestId : value)
    (cl : Call) :
  let response :=
    VObj [(js "status", VStr status);
          (js "result", result);
          (js "request_id", match requestId with VUndefined => VNull | r => r end);
          (js "timestamp", VInt (now env))] in
  wire_state cl = Open → promise cl = None → responseBuffer cl = [] →
  toString last ≠ [] →
  concat (toString <$> init) ++ toString last = createResponse env status result requestId →
  LF ∉ JSON_stringify response →
  JSON_parse (trim (JSON_stringify response)) = Some response →
  ∃ cl', stub_run packet (SData <$> init ++ [last]) cl = Some cl'
         ∧ promise cl' = Some (Normal response)
         ∧ wire_state cl' = Destroyed.
Proof.
  intros response Hw Hp Hbuf Hlast Hcat HLF Hparse.
  destruct (stub_collects packet init last (JSON_stringify response) cl Hw Hp Hlast)
    as (_ & cl' & Hrun & Hpromise & _ & Hwire); [by rewrite Hbuf|done|].
  exists cl'. rewrite Hparse in Hpromise. done.
Qed.

(** ** What [totalReceived] counts *)

Lemma for_messages_received (c : nat) (env : Env) (msgs : list jsstring) (st : State) :
  totalReceived (stats (fst (for_messages c env msgs st))) = totalReceived (stats st).
Proof.
  apply (for_messages_keeps (λ s, totalReceived (stats s) = totalReceived (stats st)));
    [| | |done].
  - intros c' env' m b r st1 name _ H.
    by destruct (processQueue_sockets (push c' env' m b r st1)) as [_ ->].
  - done.
  - done.
Qed.

Lemma step_received (ev : event) (st st' : State) :
  step ev st = Some st' →
  totalReceived (stats st')
  = (totalReceived (stats st) + chunks_in [ev])%nat.
Proof.
  intros Hstep. destruct ev as [c|c data env|c|c|i env|i ok env|]; simpl in Hstep;
    cbn [chunks_in is_chunk].
  - destruct (sockets st !! c); simplify_eq. cbn. lia.
  - destruct (sockets st !! c) as [s|] eqn:Hs; [|done]. destruct (destroyed s); simplify_eq.
    unfold on_data. rewrite Hs. destruct (feed (buffer s) data) as [msgs buf].
    rewrite for_messages_received. cbn. lia.
  - destruct (sockets st !! c) as [s|]; [|done]. destruct (destroyed s); simplify_eq.
    cbn. lia.
  - destruct (sockets st !! c) as [s|]; simplify_eq. cbn. lia.
  - destruct (workers st !! i) as [[j []]|] eqn:Hw; simplify_eq.
    destruct (executeMethod _ _ _ _); simplify_eq.
    + rewrite (complete_stats _ _ _ _ _ Hw), respond_stats. destruct outcome; cbn; lia.
    + cbn. lia.
  - destruct (workers st !! i) as [[j []]|] eqn:Hw; simplify_eq.
    rewrite (complete_stats _ _ _ _ _ Hw), respond_stats.
    destruct (resumeMethod _ _ _); cbn; lia.
  - destruct (immediates st) eqn:Hi; simplify_eq.
    destruct (processQueue_sockets (with_immediates n st)) as [_ ->]. cbn. lia.
Qed.

(** X12. [stats.totalReceived] counts chunks, not requests: after any run of the
    server it is the number of ['data'] events of the run, whether a chunk
    held no complete message, one, or several, valid or not. *)
Theorem totalReceived_counts_chunks (evs : list event) (start : Z) (st : State) :
  run evs (initial start) = Some st →
  totalReceived (stats st) = chunks_in evs.
Proof.
  assert (∀ evs st0 st1, run evs st0 = Some st1 →
            totalReceived (stats st1) = (totalReceived (stats st0) + chunks_in evs)%nat)
    as Hgen.
  { clear. intros evs. induction evs as [|ev evs IH]; intros st0 st1; simpl.
    - intros [= <-]. lia.
    - destruct (step ev st0) as [st0'|] eqn:Hstep; [|done]. intros Hrun.
      rewrite (IH _ _ Hrun), (step_received _ _ _ Hstep). cbn [chunks_in]. lia. }
  intros Hrun. by rewrite (Hgen _ _ _ Hrun).
Qed.

(** ** A job that waits is answered *)

Lemma step_startTime (ev : event) (st st' : State) :
  step ev st = Some st' → startTime (stats st') = startTime (stats st).
Proof.
  intros Hstep. destruct ev as [c|c data env|c|c|i env|i ok env|]; simpl in Hstep.
  - by destruct (sockets st !! c); simplify_eq.
  - destruct (sockets st !! c) as [s|] eqn:Hs; [|done]. destruct (destroyed s); simplify_eq.
    apply (on_data_keeps (λ s, startTime (stats s) = startTime (stats st))); try done.
    intros c' env' m b r st1 name _ H.
    by destruct (processQueue_sockets (push c' env' m b r st1)) as [_ ->].
  - destruct (sockets st !! c) as [s|]; [|done]. by destruct (destroyed s); simplify_eq.
  - by destruct (sockets st !! c) as [s|]; simplify_eq.
  - destruct (workers st !! i) as [[j []]|] eqn:Hw; simplify_eq.
    destruct (executeMethod _ _ _ _); simplify_eq; [|done].
    rewrite (complete_stats _ _ _ _ _ Hw), respond_stats. by destruct outcome.
  - destruct (workers st !! i) as [[j []]|] eqn:Hw; simplify_eq.
    rewrite (complete_stats _ _ _ _ _ Hw), respond_stats.
    by destruct (resumeMethod _ _ _).
  - destruct (immediates st) eqn:Hi; simplify_eq.
    by destruct (processQueue_sockets (with_immediates n st)) as [_ ->].
Qed.

Lemma run_startTime (evs : list event) (st st' : State) :
  run evs st = Some st' → startTime (stats st') = startTime (stats st).
Proof.
  revert st. induction evs as [|ev evs IH]; intros st; simpl.
  - by intros [= <-].
  - destruct (step ev st) as [st1|] eqn:Hstep; [|done]. intros Hrun.
    by rewrite (IH _ Hrun), (step_startTime _ _ _ Hstep).
Qed.

Lemma socket_eta (s : Socket) :
  mkSocket (buffer s) (written s ++ []) (ended s) (destroyed s) = s.
Proof. destruct s. cbn. by rewrite app_nil_r. Qed.

(** The end of an activation appends at most one frame to one socket and
    changes nothing else of any socket. *)
Lemma complete_appends (i : nat) (env : Env) (outcome : completion value) (w : Worker)
    (st : State) (c : nat) (s : Socket) :
  workers st !! i = Some w → sockets st !! c = Some s →
  ∃ pre, sockets (complete i env outcome st) !! c
         = Some (mkSocket (buffer s) (written s ++ pre) (ended s) (destroyed s)).
Proof.
  intros Hw Hs. rewrite (complete_sockets _ _ _ _ _ Hw).
  destruct (sockets st !! socket (job w)) as [s0|] eqn:Hs0.
  - destruct (destroyed s0) eqn:Hd.
    + rewrite (respond_closed _ _ _ _ _ Hs0 Hd). exists []. by rewrite socket_eta.
    + rewrite (respond_open _ _ _ _ _ Hs0 Hd).
      destruct (decide (c = socket (job w))) as [->|Hc].
      * rewrite lookup_alter_eq, Hs. cbn. by eexists.
      * rewrite lookup_alter_ne by done. exists []. by rewrite socket_eta.
  - exists []. rewrite socket_eta.
    unfold respond, writable. destruct outcome; cbn; by rewrite Hs0.
Qed.

(** The activation that is running comes to its end, and what it leaves of
    the sockets is what was there, with at most its response appended. *)
Lemma activation_ends_sockets (env : Env) (w : Worker) (st : State) :
  workers st = [w] →
  ∃ evs st',
    Forall worker_turn evs ∧ run evs st = Some st'
    ∧ workers st' = [] ∧ processingQueue st' = processingQueue st
    ∧ ∀ c s, sockets st !! c = Some s →
        ∃ pre, sockets st' !! c
               = Some (mkSocket (buffer s) (written s ++ pre) (ended s) (destroyed s)).
Proof.
  intros Hws.
  assert (∀ st1 j p outcome, workers st1 = [mkWorker j p] → sockets st1 = sockets st →
            workers (complete 0 env outcome st1) = []
            ∧ processingQueue (complete 0 env outcome st1) = processingQueue st1
            ∧ ∀ c s, sockets st !! c = Some s →
                ∃ pre, sockets (complete 0 env outcome st1) !! c
                       = Some (mkSocket (buffer s) (written s ++ pre) (ended s)
                                 (destroyed s))) as Hend.
  { intros st1 j p outcome H1 Hsock.
    assert (workers st1 !! 0%nat = Some (mkWorker j p)) as Hw by by rewrite H1.
    destruct (complete_fields 0 env outcome _ st1 Hw) as (-> & _ & -> & _).
    rewrite H1. split; [done|]. split; [done|].
    intros c s Hs. rewrite <- Hsock in Hs. by eapply complete_appends. }
  destruct w as [j [|]].
  - destruct (executeMethod env (startTime (stats st)) (method j) (payload j))
      as [outcome|call] eqn:Hex.
    + exists [TimerFired 0 env], (complete 0 env outcome st).
      split; [by repeat constructor|]. split; [|by eapply Hend].
      cbn [run]. rewrite (step_timer 0 env j) by (by rewrite Hws). by rewrite Hex.
    + set (st1 := set_phase 0 AwaitingSink (with_mutations (mutations st ++ [call]) st)).
      assert (workers st1 = [mkWorker j AwaitingSink]) as H1.
      { unfold st1. cbn. by rewrite Hws. }
      exists [TimerFired 0 env; Settled 0 (Normal VUndefined) env],
             (complete 0 env (resumeMethod env (payload j) (Normal VUndefined)) st1).
      split; [by repeat constructor|]. split.
      { cbn [run]. rewrite (step_timer 0 env j) by (by rewrite Hws). rewrite Hex.
        fold st1. by rewrite (step_settled 0 env j) by (by rewrite H1). }
      destruct (Hend st1 j AwaitingSink
                  (resumeMethod env (payload j) (Normal VUndefined)) H1 eq_refl)
        as (? & ? & ?).
      done.
  - exists [Settled 0 (Normal VUndefined) env],
           (complete 0 env (resumeMethod env (payload j) (Normal VUndefined)) st).
    split; [by repeat constructor|]. split; [|by eapply Hend].
    cbn [run]. by rewrite (step_settled 0 env j) by (by rewrite Hws).
Qed.

(** An activation at its delay, whose socket is there: its timer fires, its
    audit call, if it makes one, settles, and its response is written on its
    socket. *)
Lemma sleeping_job_is_answered (env : Env) (j : Job) (s : Socket) (st : State) :
  workers st = [mkWorker j Sleeping] →
  sockets st !! socket j = Some s → destroyed s = false →
  ∃ evs st' outcome,
    Forall worker_turn evs ∧ run evs st = Some st'
    ∧ handled env (startTime (stats st)) (method j) (payload j) outcome
    ∧ sockets st' !! socket j
      = Some (mkSocket (buffer s) (written s ++ [reply env outcome (requestId j)])
                (ended s) false).
Proof.
  intros Hws Hs Hd.
  assert (∀ st1 p outcome, workers st1 = [mkWorker j p] → sockets st1 = sockets st →
            sockets (complete 0 env outcome st1) !! socket j
            = Some (mkSocket (buffer s) (written s ++ [reply env outcome (requestId j)])
                      (ended s) false)) as Hend.
  { intros st1 p outcome H1 Hsock.
    assert (workers st1 !! 0%nat = Some (mkWorker j p)) as Hw by by rewrite H1.
    rewrite <- Hsock in Hs.
    rewrite (complete_sockets _ _ _ _ _ Hw). cbn [job].
    rewrite (respond_open _ _ _ _ _ Hs Hd), lookup_alter_eq, Hs. cbn.
    rewrite Hd. by destruct outcome. }
  unfold handled.
  destruct (executeMethod env (startTime (stats st)) (method j) (payload j))
    as [outcome|call] eqn:Hex.
  - exists [TimerFired 0 env], (complete 0 env outcome st), outcome.
    split; [by repeat constructor|]. split; [|split; [done|by eapply Hend]].
    cbn [run]. rewrite (step_timer 0 env j) by (by rewrite Hws). by rewrite Hex.
  - set (st1 := set_phase 0 AwaitingSink (with_mutations (mutations st ++ [call]) st)).
    assert (workers st1 = [mkWorker j AwaitingSink]) as H1.
    { unfold st1. cbn. by rewrite Hws. }
    exists [TimerFired 0 env; Settled 0 (Normal VUndefined) env],
           (complete 0 env (resumeMethod env (payload j) (Normal VUndefined)) st1),
           (resumeMethod env (payload j) (Normal VUndefined)).
    split; [by repeat constructor|]. split.
    { cbn [run]. rewrite (step_timer 0 env j) by (by rewrite Hws). rewrite Hex.
      fold st1. by rewrite (step_settled 0 env j) by (by rewrite H1). }
    split; [by eexists|]. by eapply Hend.
Qed.

(** The scheduled callback takes the head of the queue of an idle server. *)
Lemma idle_takes_head (j : Job) (q : list Job) (st : State) :
  reachable st → workers st = [] → processingQueue st = j :: q →
  ∃ st1, step Immediate st = Some st1
         ∧ workers st1 = [mkWorker j Sleeping] ∧ processingQueue st1 = q
         ∧ sockets st1 = sockets st ∧ stats st1 = stats st.
Proof.
  intros Hst Hws Hq.
  pose proof (flag_counts_workers_invariant st Hst) as Hflag.
  unfold flag_counts_workers in Hflag. rewrite Hws in Hflag.
  destruct (isProcessing st) eqn:Hb; [done|].
  destruct (worker_is_awake_invariant st Hst) as [Hb'|Hi];
    [by rewrite Hq|congruence|].
  destruct (immediates st) as [|m] eqn:Him; [lia|].
  exists (processQueue (with_immediates m st)).
  split; [cbn; by rewrite Him|].
  unfold processQueue. cbn. rewrite Hb, Hq, Hws. done.
Qed.

(** A job in the queue of an idle server is answered when its turn comes,
    if its socket is there: the worker, by itself, takes the jobs before it
    one after the other, then the job, and writes its response behind what
    the socket was sent in the meantime. *)
Lemma queued_job_is_answered (env : Env) (n : nat) (st : State) (q1 q2 : list Job)
    (j : Job) (s : Socket) :
  reachable st → workers st = [] →
  processingQueue st = q1 ++ j :: q2 → length q1 = n →
  sockets st !! socket j = Some s → destroyed s = false →
  ∃ evs st' outcome pre,
    Forall worker_turn evs ∧ run evs st = Some st'
    ∧ handled env (startTime (stats st)) (method j) (payload j) outcome
    ∧ sockets st' !! socket j
      = Some (mkSocket (buffer s)
                (written s ++ pre ++ [reply env outcome (requestId j)])
                (ended s) false).
Proof.
  revert st q1 s. induction n as [|n IH]; intros st q1 s Hst Hws Hq Hlen Hs Hd.
  - destruct q1; [|done]. simpl in Hq.
    destruct (idle_takes_head j q2 st Hst Hws Hq) as (st1 & Hstep & Hws1 & _ & Hsock & Hstats).
    rewrite <- Hsock in Hs.
    destruct (sleeping_job_is_answered env j s st1 Hws1 Hs Hd)
      as (evs & st2 & outcome & Hev & Hrun & Hout & Hsock2).
    exists (Immediate :: evs), st2, outcome, [].
    split; [by constructor|]. split; [cbn [run]; by rewrite Hstep|].
    split; [by rewrite <- Hstats|done].
  - destruct q1 as [|j0 q1]; [done|]. simpl in Hq, Hlen.
    destruct (idle_takes_head j0 _ st Hst Hws Hq) as (st1 & Hstep & Hws1 & Hq1 & Hsock & Hstats).
    pose proof (reachable_step _ _ _ Hst Hstep) as Hst1.
    destruct (activation_ends_sockets env _ st1 Hws1)
      as (evs2 & st2 & Hev2 & Hrun2 & Hws2 & Hq2 & Hsock2).
    pose proof (run_reachable _ _ _ Hst1 Hrun2) as Hst2.
    rewrite <- Hsock in Hs. destruct (Hsock2 _ _ Hs) as [pre0 Hs2].
    assert (processingQueue st2 = q1 ++ j :: q2) as Hq2' by (by rewrite Hq2, Hq1).
    assert (length q1 = n) as Hlen' by lia.
    destruct (IH st2 q1 _ Hst2 Hws2 Hq2' Hlen' Hs2 Hd)
      as (evs3 & st3 & outcome & pre & Hev3 & Hrun3 & Hout & Hsock3).
    exists (Immediate :: evs2 ++ evs3), st3, outcome, (pre0 ++ pre).
    split; [constructor; [done|by apply Forall_app]|].
    split; [cbn [run]; by rewrite Hstep, run_app, Hrun2|].
    split.
    { by rewrite (run_startTime _ _ _ Hrun2), Hstats in Hout. }
    rewrite Hsock3. cbn. by rewrite <- !app_assoc.
Qed.

(** The same when an activation is running: it ends first. *)
Lemma waiting_job_is_answered (env : Env) (w : Worker) (st : State) (q1 q2 : list Job)
    (j : Job) (s : Socket) :
  reachable st → workers st = [w] →
  processingQueue st = q1 ++ j :: q2 →
  sockets st !! socket j = Some s → destroyed s = false →
  ∃ evs st' outcome pre,
    Forall worker_turn evs ∧ run evs st = Some st'
    ∧ handled env (startTime (stats st)) (method j) (payload j) outcome
    ∧ sockets st' !! socket j
      = Some (mkSocket (buffer s)
                (written s ++ pre ++ [reply env outcome (requestId j)])
                (ended s) false).
Proof.
  intros Hst Hws Hq Hs Hd.
  destruct (activation_ends_sockets env w st Hws)
    as (evs1 & st1 & Hev1 & Hrun1 & Hws1 & Hq1 & Hsock1).
  pose proof (run_reachable _ _ _ Hst Hrun1) as Hst1.
  destruct (Hsock1 _ _ Hs) as [pre0 Hs1].
  assert (processingQueue st1 = q1 ++ j :: q2) as Hq1' by (by rewrite Hq1).
  destruct (queued_job_is_answered env (length q1) st1 q1 q2 j _ Hst1 Hws1 Hq1' eq_refl
              Hs1 Hd)
    as (evs2 & st2 & outcome & pre & Hev2 & Hrun2 & Hout & Hsock2).
  exists (evs1 ++ evs2), st2, outcome, (pre0 ++ pre).
  split; [by apply Forall_app|]. split; [by rewrite run_app, Hrun1|].
  split; [by rewrite (run_startTime _ _ _ Hrun1) in Hout|].
  rewrite Hsock2. cbn. by rewrite <- !app_assoc.
Qed.

(** ** An unknown method, and the request after it *)

(** A job admitted on a server whose worker is idle: the worker takes the
    head of the queue at once. *)
Lemma admit_when_idle (c : nat) (env : Env) (m body rid : value) (st : State) :
  workers st = [] → isProcessing st = false →
  let j := mkJob m body rid c (now env) (length (admitted st)) in
  let st1 := processQueue (push c env m body rid st) in
  sockets st1 = sockets st ∧ stats st1 = stats st
  ∧ match processingQueue st with
    | [] => workers st1 = [mkWorker j Sleeping] ∧ processingQueue st1 = []
    | j0 :: q => workers st1 = [mkWorker j0 Sleeping] ∧ processingQueue st1 = q ++ [j]
    end.
Proof.
  intros Hws Hb j st1. subst j st1.
  destruct (processQueue_sockets (push c env m body rid st)) as [-> ->].
  split; [done|]. split; [done|].
  unfold processQueue, push. cbn. rewrite Hb. cbn.
  case_bool_decide as Hlen; [by rewrite length_app in Hlen; simpl in Hlen; lia|].
  destruct (processingQueue st) as [|j0 q]; cbn; by rewrite Hws.
Qed.

(** C6. An activation whose job names a method that is not registered:
    [executeMethod] throws the error "Unknown method: " followed by the
    name; when the timer of the activation fires, the worker writes an
    [ERROR] response with that text and the request id of the job on the
    socket of the job; the socket is otherwise as it was, neither ended nor
    destroyed, and the data callback of the connection still runs for every
    later chunk.  The connection is usable: on a server in a state it can
    reach, a later chunk on this connection that completes a frame with the
    shared secret is accepted, its job is queued behind the jobs that wait,
    nothing but the new rest of the buffer is changed on the socket, and the
    worker, by itself, comes to that job and writes its response ([OK] with
    the result of the handler, or [ERROR] with the message of its error), with
    the request id of the frame, on this connection, after the [ERROR]
    response of the unknown method. *)
Theorem unknown_method_isolated (i : nat) (env : Env) (j : Job) (m : jsstring)
    (s : Socket) (st : State) :
  workers st !! i = Some (mkWorker j Sleeping) →
  method j = VStr m → m ∉ RPC_METHODS.all →
  sockets st !! socket j = Some s → destroyed s = false →
  let text := js "Unknown method: " ++ m in
  let answer := createResponse env (js "ERROR") (VStr text) (requestId j) in
  executeMethod env (startTime (stats st)) (method j) (payload j)
  = Done (Throw (Error text))
  ∧ ∃ st',
      step (TimerFired i env) st = Some st'
      ∧ sockets st' !! socket j
        = Some (mkSocket (buffer s) (written s ++ [answer]) (ended s) (destroyed s))
      ∧ (∀ c, c ≠ socket j → sockets st' !! c = sockets st !! c)
      ∧ processingQueue st' = processingQueue st
      ∧ isProcessing st' = false
      ∧ (∀ data env',
           step (Data (socket j) data env') st'
           = Some (on_data (socket j) env' data st'))
      ∧ (reachable st →
         ∀ (env1 env2 : Env) (data : Buffer) (raw rest : jsstring)
           (parsed header m' rid' body' : value) (name' : jsstring),
           feed (buffer s) data = ([raw], rest) →
           trim raw ≠ [] →
           parseMessage raw = Normal parsed →
           get parsed (js "header") = Normal header →
           get header (js "method") = Normal m' →
           ToString m' = Normal name' →
           get header (js "auth_token") = Normal (VStr AUTH_TOKEN) →
           get header (js "request_id") = Normal rid' →
           get parsed (js "body") = Normal body' →
           ∃ st1,
             step (Data (socket j) data env1) st' = Some st1
             ∧ (job <$> workers st1) ++ processingQueue st1
               = processingQueue st
                 ++ [mkJob m' body' rid' (socket j) (now env1) (length (admitted st))]
             ∧ sockets st1 !! socket j
               = Some (mkSocket rest (written s ++ [answer]) (ended s) false)
             ∧ ∃ evs st2 outcome pre,
                 Forall worker_turn evs ∧ run evs st1 = Some st2
                 ∧ handled env2 (startTime (stats st)) m' body' outcome
                 ∧ sockets st2 !! socket j
                   = Some (mkSocket rest
                             (written s ++ [answer] ++ pre ++ [reply env2 outcome rid'])
                             (ended s) false)).
Proof.
  intros Hw Hm Hnot Hs Hd text answer.
  pose proof (executeMethod_unknown env (startTime (stats st)) m (payload j) Hnot) as Hex.
  rewrite Hm. split; [done|].
  set (st' := complete i env (Throw (Error text)) st).
  assert (sockets st'
          = alter (λ s, mkSocket (buffer s) (written s ++ [answer]) (ended s) (destroyed s))
              (socket j) (sockets st)) as Hsock.
  { unfold st'. rewrite (complete_sockets _ _ _ _ _ Hw).
    by rewrite (respond_open _ _ _ _ _ Hs Hd). }
  assert (step (TimerFired i env) st = Some st') as Hstep.
  { rewrite (step_timer i env j st Hw). by rewrite Hm, Hex. }
  assert (sockets st' !! socket j
          = Some (mkSocket (buffer s) (written s ++ [answer]) (ended s) (destroyed s)))
    as Hs'. { by rewrite Hsock, lookup_alter_eq, Hs. }
  destruct (complete_fields i env (Throw (Error text)) _ st Hw)
    as (Hq' & Hb' & Hws' & _ & _ & Ha' & _). fold st' in Hq', Hb', Hws', Ha'.
  exists st'.
  split; [done|]. split; [done|].
  split; [intros c Hc; by rewrite Hsock, lookup_alter_ne|].
  split; [done|]. split; [done|].
  split.
  { intros data env'. cbn [step]. rewrite Hs'. cbn. by rewrite Hd. }
  intros Hst env1 env2 data raw rest parsed header m' rid' body' name'
    Hfeed Hblank Hp Hh Hm' Hname Ht Hr Hbody.
  pose proof (reachable_step _ _ _ Hst Hstep) as Hst'.
  assert (workers st' = []) as Hidle.
  { pose proof (flag_counts_workers_invariant st' Hst') as Hflag.
    unfold flag_counts_workers in Hflag. rewrite Hb' in Hflag.
    by destruct (workers st'). }
  set (sta := set_buffer (socket j) rest (count_received st')).
  set (j' := mkJob m' body' rid' (socket j) (now env1) (length (admitted st))).
  assert (on_data (socket j) env1 data st'
          = processQueue (push (socket j) env1 m' body' rid' sta)) as Hdata.
  { unfold on_data. rewrite Hs'. cbn [buffer]. rewrite Hfeed.
    rewrite for_messages_cons, on_message_eq.
    rewrite (admission_authorized _ _ _ _ _ _ _ _ Hp Hh Hm' Hname Ht Hr Hbody).
    destruct (trim raw) eqn:Htrim; [done|]. cbn [is_empty].
    by replace (strict_equals (VStr AUTH_TOKEN) AUTH_TOKEN) with true by done. }
  assert (step (Data (socket j) data env1) st'
          = Some (processQueue (push (socket j) env1 m' body' rid' sta))) as Hstep1.
  { cbn [step]. rewrite Hs'. cbn. by rewrite Hd, Hdata. }
  pose proof (reachable_step _ _ _ Hst' Hstep1) as Hst1.
  destruct (admit_when_idle (socket j) env1 m' body' rid' sta) as (Hsock1 & Hstats1 & Hjobs);
    [done|done|].
  change (admitted sta) with (admitted st') in Hjobs. rewrite Ha' in Hjobs. fold j' in Hjobs.
  change (processingQueue sta) with (processingQueue st') in Hjobs. rewrite Hq' in Hjobs.
  set (st1 := processQueue (push (socket j) env1 m' body' rid' sta)) in *.
  assert (sockets st1 !! socket j
          = Some (mkSocket rest (written s ++ [answer]) (ended s) false)) as Hs1.
  { rewrite Hsock1. unfold sta. cbn. rewrite lookup_alter_eq, Hs'. cbn. by rewrite Hd. }
  assert (startTime (stats st1) = startTime (stats st)) as Hstart.
  { by rewrite (step_startTime _ _ _ Hstep1), (step_startTime _ _ _ Hstep). }
  exists st1. split; [done|].
  destruct (processingQueue st) as [|j0 q] eqn:Hq; destruct Hjobs as [Hws1 Hq1].
  - split; [by rewrite Hws1, Hq1|]. split; [done|].
    destruct (sleeping_job_is_answered env2 j' _ st1 Hws1 Hs1 eq_refl)
      as (evs & st2 & outcome & Hev & Hrun & Hout & Hs2).
    exists evs, st2, outcome, [].
    split; [done|]. split; [done|]. split; [by rewrite Hstart in Hout|].
    unfold j' in Hs2. cbn [socket requestId] in Hs2.
    rewrite Hs2. cbn. by rewrite <- app_assoc.
  - split; [by rewrite Hws1, Hq1|]. split; [done|].
    destruct (waiting_job_is_answered env2 _ st1 q [] j' _ Hst1 Hws1 Hq1 Hs1 eq_refl)
      as (evs & st2 & outcome & pre & Hev & Hrun & Hout & Hs2).
    exists evs, st2, outcome, pre.
    split; [done|]. split; [done|]. split; [by rewrite Hstart in Hout|].
    unfold j' in Hs2. cbn [socket requestId] in Hs2.
    rewrite Hs2. cbn. by rewrite <- !app_assoc.
Qed.

End Server.

(** ** The server on sample traffic *)

(** The state after a run of the server with the sample built-ins, started
    at time 0. *)
Definition after (evs : list event) : State :=
  default (initial 0)
    (run Sample.JSON_parse Sample.JSON_stringify Sample.Number_toString evs (initial 0)).

(** C3. The chunks are decoded one by one, so a chunk boundary inside a
    multi-byte character spoils the message.  The upload of [résumé.txt],
    received in one chunk, is framed as sent; cut after byte 115, between
    the two bytes of the first [é], it comes out with two U+FFFD in place of
    that letter. *)
Lemma framing_splits_character :
  let stream := Examples.accented_upload ++ [x0a] in
  feed_all [] [stream] = ([toString Examples.accented_upload], [])
  ∧ feed_all [] [take 115 stream; drop 115 stream]
    = ([toString (take 114 stream) ++ [65533; 65533]
        ++ toString (drop 116 Examples.accented_upload)], [])
  ∧ feed_all [] [take 115 stream; drop 115 stream] ≠ feed_all [] [stream].
Proof. vm_compute. repeat split. discriminate. Qed.

Lemma at_most_one_job_executing_witness :
  reachable Sample.JSON_parse Sample.JSON_stringify Sample.Number_toString
    (after Examples.two_clients)
  ∧ (length (workers (after Examples.two_clients)) ≤ 1)%nat.
Proof.
  split; [apply reachable_run_default|].
  apply (at_most_one_job_executing Sample.JSON_parse Sample.JSON_stringify
           Sample.Number_toString).
  apply reachable_run_default.
Defined.

Lemma global_fifo_witness :
  ∃ p, (p < 1)%nat ∧ begun (after Examples.both_served) !! p = Some 0%nat.
Proof.
  apply (global_fifo Sample.JSON_parse Sample.JSON_stringify Sample.Number_toString
           (after Examples.both_served) 0 1 0 1 1).
  - apply reachable_run_default.
  - vm_compute. reflexivity.
  - vm_compute. reflexivity.
  - lia.
  - vm_compute. reflexivity.
Defined.

Lemma auth_rejection_witness :
  let answer :=
    createResponse Sample.JSON_stringify Examples.env0 (js "ERROR")
      (VStr (js "Unauthorized")) (VStr (js "r3")) in
  let st' :=
    fst (on_message Sample.JSON_parse Sample.JSON_stringify
      Sample.Number_toString 0 Examples.env0
           Examples.intruder Examples.connected) in
  snd (on_message Sample.JSON_parse Sample.JSON_stringify
      Sample.Number_toString 0 Examples.env0
         Examples.intruder Examples.connected) = Normal Return
  ∧ jobs_view st' = jobs_view Examples.connected
  ∧ length (processingQueue st') = length (processingQueue Examples.connected)
  ∧ stats st' = stats Examples.connected
  ∧ (∀ s, sockets Examples.connected !! 0%nat = Some s →
       sockets st' !! 0%nat
       = Some (mkSocket (buffer s) (written s ++ [answer]) true (destroyed s)))
  ∧ (∀ c', c' ≠ 0%nat → sockets st' !! c' = sockets Examples.connected !! c').
Proof.
  eapply (auth_rejection Sample.JSON_parse Sample.JSON_stringify
      Sample.Number_toString 0 Examples.env0
            Examples.intruder).
  - vm_compute. discriminate.
  - vm_compute. reflexivity.
  - vm_compute. reflexivity.
  - vm_compute. reflexivity.
  - vm_compute. reflexivity.
  - vm_compute. reflexivity.
  - vm_compute. reflexivity.
  - vm_compute. reflexivity.
Defined.

(** C4, as the specification states it, fails on a request whose method
    cannot be printed.  The frame parses, it has a header, and its token is
    not the shared secret; but the log line before the token test throws when
    it converts the method, so the [catch] answers: the response is the
    format error with a null request id, not [Unauthorized] with the id of
    the request, [socket.end()] is not called, and the loop goes on. *)
Lemma auth_rejection_counterexample :
  (∃ parsed header,
     parseMessage Sample.JSON_parse Examples.unprintable = Normal parsed
     ∧ get parsed (js "header") = Normal header
     ∧ get header (js "auth_token") = Normal (VStr (js "WRONG"))
     ∧ get header (js "request_id") = Normal (VStr (js "r8"))
     ∧ strict_equals (VStr (js "WRONG")) AUTH_TOKEN = false)
  ∧ on_message Sample.JSON_parse Sample.JSON_stringify Sample.Number_toString
      0 Examples.env0 Examples.unprintable Examples.connected
    = (socket_write 0
         (createResponse Sample.JSON_stringify Examples.env0 (js "ERROR")
            (VStr (js "Invalid message format")) VUndefined)
         (count_error Examples.connected), Normal Next)
  ∧ sockets (fst (on_message Sample.JSON_parse Sample.JSON_stringify
                    Sample.Number_toString 0 Examples.env0 Examples.unprintable
                    Examples.connected)) !! 0%nat
    = Some (mkSocket []
              [Sample.text
                 "{`status`:`ERROR`,`result`:`Invalid message format`,`request_id`:null,`timestamp`:1000}"
               ++ [LF]] false false)
  ∧ ¬ (snd (on_message Sample.JSON_parse Sample.JSON_stringify Sample.Number_toString
              0 Examples.env0 Examples.unprintable Examples.connected) = Normal Return
       ∧ sockets (fst (on_message Sample.JSON_parse Sample.JSON_stringify
                         Sample.Number_toString 0 Examples.env0 Examples.unprintable
                         Examples.connected)) !! 0%nat
         = Some (mkSocket []
                   [createResponse Sample.JSON_stringify Examples.env0 (js "ERROR")
                      (VStr (js "Unauthorized")) (VStr (js "r8"))] true false)).
Proof.
  split; [do 2 eexists; vm_compute; repeat split|].
  split; [vm_compute; reflexivity|].
  split; [vm_compute; reflexivity|].
  intros [H _]. vm_compute in H. discriminate H.
Qed.


Lemma unknown_method_isolated_witness :
  let st := after [Accept 0; Data 0 (Examples.wire [Examples.nope]) Examples.env0] in
  let answer :=
    createResponse Sample.JSON_stringify Examples.env0 (js "ERROR")
      (VStr (js "Unknown method: NOPE")) (VStr (js "r4")) in
  executeMethod Sample.Number_toString Examples.env0 0
    (method Examples.nope_job) (payload Examples.nope_job)
  = Done (Throw (Error (js "Unknown method: NOPE")))
  ∧ ∃ st',
      step Sample.JSON_parse Sample.JSON_stringify Sample.Number_toString
        (TimerFired 0 Examples.env0) st = Some st'
      ∧ sockets st' !! 0%nat = Some (mkSocket [] [answer] false false)
      ∧ ∃ st1,
          step Sample.JSON_parse Sample.JSON_stringify Sample.Number_toString
            (Data 0 (Examples.wire [Examples.ping]) Examples.env1) st' = Some st1
          ∧ (job <$> workers st1) ++ processingQueue st1
            = [mkJob (VStr RPC_METHODS.PING) (VObj []) (VStr (js "r1")) 0 1060 1]
          ∧ ∃ evs st2 outcome pre,
              Forall worker_turn evs
              ∧ run Sample.JSON_parse Sample.JSON_stringify Sample.Number_toString
                  evs st1 = Some st2
              ∧ handled Sample.Number_toString Examples.env1 0
                  (VStr RPC_METHODS.PING) (VObj []) outcome
              ∧ sockets st2 !! 0%nat
                = Some (mkSocket []
                          ([answer] ++ pre
                           ++ [reply Sample.JSON_stringify Examples.env1 outcome
                                 (VStr (js "r1"))])
                          false false).
Proof.
  intros st answer.
  destruct (unknown_method_isolated Sample.JSON_parse Sample.JSON_stringify
              Sample.Number_toString 0 Examples.env0 Examples.nope_job (js "NOPE")
              fresh_socket st)
    as (Hthrow & st' & Hstep & Hsocket & _ & _ & _ & _ & Husable).
  - vm_compute. reflexivity.
  - reflexivity.
  - unfold RPC_METHODS.all. rewrite !not_elem_of_cons.
    repeat split; try (vm_compute; discriminate). apply not_elem_of_nil.
  - vm_compute. reflexivity.
  - reflexivity.
  - split; [exact Hthrow|]. exists st'. split; [exact Hstep|]. split; [exact Hsocket|].
    destruct (Husable (reachable_run_default _ _ _ _ _) Examples.env1 Examples.env1
                (Examples.wire [Examples.ping]) Examples.ping []
                (VObj [(js "header",
                        VObj [(js "auth_token", VStr (js "SECRET_123"));
                              (js "method", VStr (js "PING"));
                              (js "timestamp", VInt 0);
                              (js "request_id", VStr (js "r1"))]);
                       (js "body", VObj [])])
                (VObj [(js "auth_token", VStr (js "SECRET_123"));
                       (js "method", VStr (js "PING"));
                       (js "timestamp", VInt 0);
                       (js "request_id", VStr (js "r1"))])
                (VStr (js "PING")) (VStr (js "r1")) (VObj []) (js "PING"))
      as (st1 & Hstep1 & Hjobs & _ & Hanswered).
    + vm_compute. reflexivity.
    + vm_compute. discriminate.
    + vm_compute. reflexivity.
    + vm_compute. reflexivity.
    + vm_compute. reflexivity.
    + vm_compute. reflexivity.
    + vm_compute. reflexivity.
    + vm_compute. reflexivity.
    + vm_compute. reflexivity.
    + exists st1. split; [exact Hstep1|]. split; [exact Hjobs|]. exact Hanswered.
Defined.

Lemma unparsable_frame_answered_witness :
  on_message Sample.JSON_parse Sample.JSON_stringify
      Sample.Number_toString 0 Examples.env0
    Examples.garbage Examples.connected
  = (socket_write 0
       (createResponse Sample.JSON_stringify Examples.env0 (js "ERROR")
          (VStr (js "Invalid message format")) VUndefined)
       (count_error Examples.connected), Normal Next).
Proof.
  refine (proj1 (unparsable_frame_answered Sample.JSON_parse Sample.JSON_stringify
      Sample.Number_toString 0
                   Examples.env0 Examples.garbage Examples.connected _ _)).
  - vm_compute. discriminate.
  - vm_compute. reflexivity.
Defined.

Lemma closed_connection_suppresses_only_the_write_witness :
  ∃ st'',
    step Sample.JSON_parse Sample.JSON_stringify Sample.Number_toString
      (TimerFired 0 Examples.env0)
      (socket_destroy 0 (Examples.working Examples.nope_job)) = Some st''
    ∧ sockets st'' = sockets (socket_destroy 0 (Examples.working Examples.nope_job))
    ∧ totalErrors (stats st'') = 1%nat.
Proof.
  destruct (closed_connection_suppresses_only_the_write Sample.JSON_parse
              Sample.JSON_stringify Sample.Number_toString 0 Examples.env0
              (TimerFired 0 Examples.env0) (mkWorker Examples.nope_job Sleeping)
              (Examples.working Examples.nope_job)
              (complete Sample.JSON_stringify 0 Examples.env0
                 (Throw (Error (js "Unknown method: NOPE")))
                 (Examples.working Examples.nope_job)))
    as (_ & _ & st'' & Hstep & _ & Hstats & Hsockets).
  - left. reflexivity.
  - reflexivity.
  - vm_compute. reflexivity.
  - exists st''. split; [exact Hstep|]. split; [exact Hsockets|].
    rewrite Hstats. reflexivity.
Defined.

Lemma blank_frame_dropped_witness :
  on_message Sample.JSON_parse Sample.JSON_stringify
      Sample.Number_toString 0 Examples.env0
    Examples.blank Examples.connected = (Examples.connected, Normal Next)
  ∧ for_messages Sample.JSON_parse Sample.JSON_stringify
      Sample.Number_toString 0 Examples.env0
      ([Examples.ping] ++ Examples.blank :: [Examples.balance]) Examples.connected
    = for_messages Sample.JSON_parse Sample.JSON_stringify
      Sample.Number_toString 0 Examples.env0
        ([Examples.ping] ++ [Examples.balance]) Examples.connected.
Proof.
  apply (blank_frame_dropped Sample.JSON_parse Sample.JSON_stringify
      Sample.Number_toString 0 Examples.env0
           [Examples.ping] [Examples.balance] Examples.blank Examples.connected).
  vm_compute. reflexivity.
Defined.

Lemma rejection_discards_rest_of_chunk_witness :
  for_messages Sample.JSON_parse Sample.JSON_stringify
      Sample.Number_toString 0 Examples.env0
    ([Examples.ping] ++ Examples.intruder :: [Examples.balance]) Examples.connected
  = for_messages Sample.JSON_parse Sample.JSON_stringify
      Sample.Number_toString 0 Examples.env0
      ([Examples.ping] ++ [Examples.intruder]) Examples.connected.
Proof.
  eapply (rejection_discards_rest_of_chunk Sample.JSON_parse Sample.JSON_stringify
      Sample.Number_toString 0
            Examples.env0 Examples.intruder).
  - vm_compute. discriminate.
  - vm_compute. reflexivity.
  - vm_compute. reflexivity.
  - vm_compute. reflexivity.
  - vm_compute. reflexivity.
  - vm_compute. reflexivity.
  - vm_compute. reflexivity.
  - vm_compute. reflexivity.
Defined.

(** ** Two sessions *)

(** The scenario of the protocol description: one [PING], one [OK] response
    with the same request id. *)
Example ping_is_answered :
  written <$> sockets (after [Accept 0; Data 0 (Examples.wire [Examples.ping]) Examples.env0;
                              TimerFired 0 Examples.env0]) !! 0%nat
  = Some [Sample.text
            "{`status`:`OK`,`result`:{`pong`:true,`serverTime`:1000,`uptime`:1},`request_id`:`r1`,`timestamp`:1000}"
          ++ [LF]].
Proof. vm_compute. reflexivity. Qed.

(** An unknown method, then a valid request on the same connection: both
    are answered, the first with the error. *)
Example unknown_method_then_ping :
  written <$> sockets (after [Accept 0;
                              Data 0 (Examples.wire [Examples.nope]) Examples.env0;
                              TimerFired 0 Examples.env0; Immediate;
                              Data 0 (Examples.wire [Examples.ping]) Examples.env1;
                              TimerFired 0 Examples.env1]) !! 0%nat
  = Some [Sample.text
            "{`status`:`ERROR`,`result`:`Unknown method: NOPE`,`request_id`:`r4`,`timestamp`:1000}"
          ++ [LF];
          Sample.text
            "{`status`:`OK`,`result`:{`pong`:true,`serverTime`:1060,`uptime`:1.06},`request_id`:`r1`,`timestamp`:1060}"
          ++ [LF]].
Proof. vm_compute. reflexivity. Qed.

(** A chunk with a valid request, a rejected one and another valid one: the
    first is queued, the second is answered and the socket ended, the third
    is never looked at. *)
Example rejected_frame_in_a_chunk :
  let st := after [Accept 0;
                   Data 0 (Examples.wire [Examples.ping; Examples.intruder; Examples.balance])
                     Examples.env0] in
  admitted st = [0%nat]
  ∧ (λ s, (length (written s), ended s)) <$> sockets st !! 0%nat = Some (1%nat, true).
Proof. vm_compute. split; reflexivity. Qed.

(** An upload whose body is missing: the handler throws when it reads
    [payload.filename], before the audit call, and the job is answered with
    an error. *)
Example upload_without_body :
  let j := mkJob (VStr RPC_METHODS.UPLOAD_FILE) VUndefined (VStr (js "r7")) 0 1000 0 in
  executeMethod Sample.Number_toString Examples.env0 0 (method j) (payload j)
  = Done (Throw (TypeError
            (js "Cannot read properties of undefined (reading 'filename')"))).
Proof. vm_compute. reflexivity. Qed.

(** A frame that is JSON but has no header: reading [header.method] throws
    inside the [try], so the frame is answered like a frame that does not
    parse, whatever token it lacks, and the socket is not ended. *)
Example headerless_frame :
  let st := fst (on_message Sample.JSON_parse Sample.JSON_stringify Sample.Number_toString
                   0 Examples.env0 (Sample.text "{}") Examples.connected) in
  (λ s, (written s, ended s)) <$> sockets st !! 0%nat
  = Some ([Sample.text
             "{`status`:`ERROR`,`result`:`Invalid message format`,`request_id`:null,`timestamp`:1000}"
           ++ [LF]], false)
  ∧ processingQueue st = [].
Proof. vm_compute. split; reflexivity. Qed.

(** A frame with a wrong token whose method is an object with a [toString]
    property: the log line throws before the token is compared, and the
    frame is answered with the format error; the socket is not ended. *)
Example unprintable_method_frame :
  let raw :=
    Sample.text
      "{`header`:{`auth_token`:`WRONG`,`method`:{`toString`:1},`request_id`:`r8`},`body`:{}}" in
  let st := fst (on_message Sample.JSON_parse Sample.JSON_stringify Sample.Number_toString
                   0 Examples.env0 raw Examples.connected) in
  (λ s, (written s, ended s)) <$> sockets st !! 0%nat
  = Some ([Sample.text
             "{`status`:`ERROR`,`result`:`Invalid message format`,`request_id`:null,`timestamp`:1000}"
           ++ [LF]], false).
Proof. vm_compute. reflexivity. Qed.

(** Two clients: after both chunks one job is being executed and the other
    waits in the queue. *)
Example two_clients_one_worker :
  length (workers (after Examples.two_clients)) = 1%nat
  ∧ length (processingQueue (after Examples.two_clients)) = 1%nat
  ∧ isProcessing (after Examples.two_clients) = true.
Proof. vm_compute. repeat split. Qed.

(** ** Further properties on sample traffic *)

Lemma queued_job_is_not_forgotten_witness :
  (∃ w, workers (after Examples.two_clients) = [w])
  ∨ (workers (after Examples.two_clients) = []
     ∧ (0 < immediates (after Examples.two_clients))%nat).
Proof.
  apply (queued_job_is_not_forgotten Sample.JSON_parse Sample.JSON_stringify
           Sample.Number_toString).
  - apply reachable_run_default.
  - vm_compute. discriminate.
Defined.

Lemma job_begins_at_most_once_witness :
  NoDup (begun (after Examples.both_served))
  ∧ NoDup (jid <$> processingQueue (after Examples.both_served))
  ∧ (∀ j, j ∈ processingQueue (after Examples.both_served)
          → jid j ∉ begun (after Examples.both_served)).
Proof.
  apply (job_begins_at_most_once Sample.JSON_parse Sample.JSON_stringify
           Sample.Number_toString).
  apply reachable_run_default.
Defined.

Lemma buffer_holds_no_terminator_witness :
  LF ∉ take 20 Examples.ping.
Proof.
  apply (buffer_holds_no_terminator Sample.JSON_parse Sample.JSON_stringify
           Sample.Number_toString
           (after [Accept 0; Data 0 (take 20 (Examples.wire [Examples.ping])) Examples.env0])
           0 (mkSocket (take 20 Examples.ping) [] false false)).
  - apply reachable_run_default.
  - vm_compute. reflexivity.
Defined.

Lemma counters_count_finished_jobs_witness :
  let st := after Examples.both_served in
  (totalProcessed (stats st) ≤ length (begun st) - length (workers st))%nat
  ∧ (length (begun st) - length (workers st)
     ≤ totalProcessed (stats st) + totalErrors (stats st))%nat.
Proof.
  apply (counters_count_finished_jobs Sample.JSON_parse Sample.JSON_stringify
           Sample.Number_toString).
  apply reachable_run_default.
Defined.

Lemma queue_drains_witness :
  let st := after Examples.two_clients in
  ∃ evs st',
    Forall worker_turn evs
    ∧ run Sample.JSON_parse Sample.JSON_stringify Sample.Number_toString evs st = Some st'
    ∧ processingQueue st' = [] ∧ workers st' = [] ∧ isProcessing st' = false
    ∧ admitted st' = admitted st ∧ begun st' = admitted st.
Proof.
  apply (queue_drains Sample.JSON_parse Sample.JSON_stringify Sample.Number_toString
           (after Examples.two_clients) Examples.env1).
  apply reachable_run_default.
Defined.

Lemma authorized_frame_is_queued_witness :
  let st' := fst (on_message Sample.JSON_parse Sample.JSON_stringify Sample.Number_toString
                    0 Examples.env0 Examples.ping Examples.connected) in
  (job <$> workers st') ++ processingQueue st'
  = [mkJob (VStr RPC_METHODS.PING) (VObj []) (VStr (js "r1")) 0 1000 0]
  ∧ admitted st' = [0%nat].
Proof.
  refine (let H := authorized_frame_is_queued Sample.JSON_parse Sample.JSON_stringify
                     Sample.Number_toString 0 Examples.env0 Examples.ping
                     _ _ (VStr RPC_METHODS.PING) (VStr (js "r1")) (VObj []) _
                     Examples.connected _ _ _ _ _ _ _ _ in
          conj (proj1 (proj2 H)) (proj1 (proj2 (proj2 H)))).
  - vm_compute. discriminate.
  - vm_compute. reflexivity.
  - vm_compute. reflexivity.
  - vm_compute. reflexivity.
  - vm_compute. reflexivity.
  - vm_compute. reflexivity.
  - vm_compute. reflexivity.
  - vm_compute. reflexivity.
Defined.

Lemma request_is_answered_on_its_connection_witness :
  ∃ st',
    step Sample.JSON_parse Sample.JSON_stringify Sample.Number_toString
      (TimerFired 0 Examples.env0)
      (fst (on_message Sample.JSON_parse Sample.JSON_stringify Sample.Number_toString
              0 Examples.env0 Examples.ping Examples.connected)) = Some st'
    ∧ sockets st' !! 0%nat
      = Some (mkSocket [] [Sample.text
            "{`status`:`OK`,`result`:{`pong`:true,`serverTime`:1000,`uptime`:1},`request_id`:`r1`,`timestamp`:1000}"
                           ++ [LF]] false false)
    ∧ isProcessing st' = false.
Proof.
  destruct (request_is_answered_on_its_connection Sample.JSON_parse Sample.JSON_stringify
              Sample.Number_toString 0 Examples.env0 Examples.env0 Examples.ping
              (VObj [(js "header",
                      VObj [(js "auth_token", VStr (js "SECRET_123"));
                            (js "method", VStr (js "PING"));
                            (js "timestamp", VInt 0);
                            (js "request_id", VStr (js "r1"))]);
                     (js "body", VObj [])])
              (VObj [(js "auth_token", VStr (js "SECRET_123"));
                     (js "method", VStr (js "PING"));
                     (js "timestamp", VInt 0);
                     (js "request_id", VStr (js "r1"))])
              (VStr (js "PING")) (VStr (js "r1")) (VObj []) (js "PING")
              (Normal (VObj [(js "pong", VBool true);
                             (js "serverTime", VInt 1000);
                             (js "uptime", VNum (1000 # 1000))]))
              fresh_socket Examples.connected)
    as (st' & Hstep & Hsocket & _ & _ & _ & Hidle).
  - vm_compute. discriminate.
  - vm_compute. reflexivity.
  - vm_compute. reflexivity.
  - vm_compute. reflexivity.
  - vm_compute. reflexivity.
  - vm_compute. reflexivity.
  - vm_compute. reflexivity.
  - vm_compute. reflexivity.
  - reflexivity.
  - reflexivity.
  - reflexivity.
  - vm_compute. reflexivity.
  - reflexivity.
  - vm_compute. reflexivity.
  - exists st'. split; [exact Hstep|]. split; [|exact Hidle].
    rewrite Hsocket. vm_compute. reflexivity.
Defined.

Lemma padding_is_ignored_witness :
  on_message Sample.JSON_parse Sample.JSON_stringify Sample.Number_toString
    0 Examples.env0 (Examples.ping ++ [13]) Examples.connected
  = on_message Sample.JSON_parse Sample.JSON_stringify Sample.Number_toString
      0 Examples.env0 Examples.ping Examples.connected.
Proof.
  apply (padding_is_ignored Sample.JSON_parse Sample.JSON_stringify Sample.Number_toString
           0 Examples.env0 [] Examples.ping [13] Examples.connected).
  - constructor.
  - repeat constructor.
Defined.

Lemma plain_handlers_fail_only_without_body_witness :
  ∃ outcome,
    executeMethod Sample.Number_toString Examples.env0 0 (VStr RPC_METHODS.CHECK_BALANCE)
      VNull = Done outcome
    ∧ ((∃ e, outcome = Throw e)
       ↔ (VNull = VUndefined ∨ VNull = VNull)
         ∧ (RPC_METHODS.CHECK_BALANCE = RPC_METHODS.DELETE_FILE
            ∨ RPC_METHODS.CHECK_BALANCE = RPC_METHODS.CHECK_BALANCE)).
Proof.
  apply (plain_handlers_fail_only_without_body Sample.Number_toString Examples.env0 0
           RPC_METHODS.CHECK_BALANCE VNull).
  repeat constructor.
Defined.

Lemma upload_without_string_content_skips_audit_witness :
  ∃ size,
    executeMethod Sample.Number_toString Examples.env0 0 (VStr RPC_METHODS.UPLOAD_FILE)
      (VObj [(js "filename", VStr (js "a.bin")); (js "content", VArr [VInt 1; VInt 2])])
    = Done (Normal (VObj [(js "message", VStr (js "File uploaded successfully"));
                          (js "filename", VStr (js "a.bin"));
                          (js "size", size);
                          (js "storedAt", VStr (iso Examples.env0))])).
Proof.
  apply (upload_without_string_content_skips_audit Sample.Number_toString Examples.env0 0
           _ (VArr [VInt 1; VInt 2])).
  - reflexivity.
  - reflexivity.
  - reflexivity.
  - intros s. discriminate.
Defined.

Lemma framing_roundtrip_ascii_witness :
  feed_all [] [buffer_of "a"; buffer_of "b" ++ [x0a] ++ buffer_of "c" ++ [x0a] ++ buffer_of "d"]
  = ([js "ab"; js "c"], js "d").
Proof.
  apply (framing_roundtrip_ascii [buffer_of "ab"; buffer_of "c"] (buffer_of "d")).
  - repeat constructor.
    + intros H. repeat (apply elem_of_cons in H as [H|H]; [discriminate H|]).
      by apply elem_of_nil in H.
    + intros H. repeat (apply elem_of_cons in H as [H|H]; [discriminate H|]).
      by apply elem_of_nil in H.
  - repeat constructor.
  - intros H. repeat (apply elem_of_cons in H as [H|H]; [discriminate H|]).
    by apply elem_of_nil in H.
  - reflexivity.
Defined.

Lemma created_message_is_queued_witness :
  let pdu :=
    pdu_of Sample.Number_toString Caller.cenv0 (VStr RPC_METHODS.PING) (VObj [])
      (VStr AUTH_TOKEN) in
  let st' :=
    on_data Sample.JSON_parse Sample.JSON_stringify Sample.Number_toString 0 Examples.env0
      (Examples.wire [Sample.JSON_stringify pdu]) Examples.connected in
  (job <$> workers st') ++ processingQueue st'
  = [mkJob (VStr RPC_METHODS.PING) (VObj []) (VStr (js "req_1700000000001_k3j9x0q2a"))
       0 1000 0]
  ∧ admitted st' = [0%nat]
  ∧ sockets st' !! 0%nat = Some fresh_socket.
Proof.
  intros pdu st'.
  apply (created_message_is_queued Sample.JSON_parse Sample.JSON_stringify
           Sample.Number_toString Caller.cenv0 (VStr RPC_METHODS.PING) (VObj [])
           RPC_METHODS.PING 0 Examples.env0 (Examples.wire [Sample.JSON_stringify pdu])
           fresh_socket Examples.connected).
  - reflexivity.
  - reflexivity.
  - vm_compute. reflexivity.
  - intros H. vm_compute in H.
    repeat (apply elem_of_cons in H as [H|H]; [discriminate H|]).
    by apply elem_of_nil in H.
  - vm_compute. discriminate.
  - vm_compute. reflexivity.
  - reflexivity.
Defined.

Lemma stub_packet_is_queued_witness :
  let pdu :=
    stub_pdu Sample.Number_toString Caller.cenv0 (VStr RPC_METHODS.CHECK_BALANCE)
      (VObj [(js "user_id", VInt 7)]) in
  let st' :=
    on_data Sample.JSON_parse Sample.JSON_stringify Sample.Number_toString 0 Examples.env0
      (Examples.wire [Sample.JSON_stringify pdu]) Examples.connected in
  (job <$> workers st') ++ processingQueue st'
  = [mkJob (VStr RPC_METHODS.CHECK_BALANCE) (VObj [(js "user_id", VInt 7)])
       (VStr (js "req_1700000000001_k3j9x0q2a")) 0 1000 0]
  ∧ admitted st' = [0%nat]
  ∧ sockets st' !! 0%nat = Some fresh_socket.
Proof.
  intros pdu st'.
  apply (stub_packet_is_queued Sample.JSON_parse Sample.JSON_stringify
           Sample.Number_toString Caller.cenv0 (VStr RPC_METHODS.CHECK_BALANCE)
           (VObj [(js "user_id", VInt 7)])
           RPC_METHODS.CHECK_BALANCE 0 Examples.env0
           (Examples.wire [Sample.JSON_stringify pdu])
           fresh_socket Examples.connected).
  - reflexivity.
  - reflexivity.
  - vm_compute. reflexivity.
  - intros H. vm_compute in H.
    repeat (apply elem_of_cons in H as [H|H]; [discriminate H|]).
    by apply elem_of_nil in H.
  - vm_compute. discriminate.
  - vm_compute. reflexivity.
  - reflexivity.
Defined.

Lemma pending_call_has_timeout_or_closed_silently_witness :
  let cl := mkCall (js "{") true Open None [js "x"] in
  (armed cl = true
   ∧ ∃ cl', stub_step Sample.JSON_parse (js "x") STimeout cl = Some cl'
            ∧ promise cl' = Some (Throw (Error (js "RPC server timeout")))
            ∧ armed cl' = false)
  ∨ (wire_state cl = Closed ∧ armed cl = false ∧ responseBuffer cl = []).
Proof.
  apply (pending_call_has_timeout_or_closed_silently Sample.JSON_parse (js "x")
           [SConnect; SData (buffer_of "{")]).
  - vm_compute. reflexivity.
  - reflexivity.
Defined.

Lemma silent_close_leaves_call_pending_witness :
  ∃ cl', stub_step Sample.JSON_parse (js "x") SClose (Caller.waiting (js "x")) = Some cl'
         ∧ promise cl' = None
         ∧ ∀ ev, stub_step Sample.JSON_parse (js "x") ev cl' = None.
Proof.
  apply (silent_close_leaves_call_pending Sample.JSON_parse (js "x")
           (Caller.waiting (js "x"))); reflexivity.
Defined.

Lemma stub_collects_chunked_response_witness :
  let init := [Sample.bytes "{`status`"; Sample.bytes ":`OK"] in
  let last := Sample.bytes "`}" ++ [x0a] in
  let cl := Caller.waiting (js "x") in
  (∃ cl1, stub_run Sample.JSON_parse (js "x") (SData <$> init) cl = Some cl1
          ∧ promise cl1 = None)
  ∧ ∃ cl', stub_run Sample.JSON_parse (js "x") (SData <$> init ++ [last]) cl = Some cl'
      ∧ promise cl' = Some (Normal (VObj [(js "status", VStr (js "OK"))]))
      ∧ armed cl' = false
      ∧ wire_state cl' = Destroyed.
Proof.
  intros init last cl.
  apply (stub_collects_chunked_response Sample.JSON_parse (js "x") init last
           (Sample.text "{`status`:`OK`}") cl).
  - reflexivity.
  - reflexivity.
  - reflexivity.
  - vm_compute. discriminate.
  - vm_compute. reflexivity.
  - intros H. vm_compute in H.
    repeat (apply elem_of_cons in H as [H|H]; [discriminate H|]).
    by apply elem_of_nil in H.
Defined.

Lemma stub_resolves_with_server_response_witness :
  let response :=
    VObj [(js "status", VStr (js "OK"));
          (js "result", VObj [(js "pong", VBool true)]);
          (js "request_id", VStr (js "r1"));
          (js "timestamp", VInt 1000)] in
  let stream := Examples.wire [Sample.JSON_stringify response] in
  ∃ cl', stub_run Sample.JSON_parse (js "x") (SData <$> [take 12 stream] ++ [drop 12 stream])
           (Caller.waiting (js "x")) = Some cl'
         ∧ promise cl' = Some (Normal response)
         ∧ wire_state cl' = Destroyed.
Proof.
  intros response stream.
  apply (stub_resolves_with_server_response Sample.JSON_parse Sample.JSON_stringify
           (js "x") [take 12 stream] (drop 12 stream) Examples.env0 (js "OK")
           (VObj [(js "pong", VBool true)]) (VStr (js "r1")) (Caller.waiting (js "x"))).
  - reflexivity.
  - reflexivity.
  - reflexivity.
  - vm_compute. discriminate.
  - vm_compute. reflexivity.
  - intros H. vm_compute in H.
    repeat (apply elem_of_cons in H as [H|H]; [discriminate H|]).
    by apply elem_of_nil in H.
  - vm_compute. reflexivity.
Defined.

Lemma totalReceived_counts_chunks_witness :
  totalReceived (stats (after Examples.both_served)) = 2%nat.
Proof.
  apply (totalReceived_counts_chunks Sample.JSON_parse Sample.JSON_stringify
           Sample.Number_toString Examples.both_served 0).
  vm_compute. reflexivity.
Defined.
